(** * BigN: a fixed-point decimal number on arbitrary-precision integers

    Shallow embedding of the class [N] of [bign.ts] (latest revision: the
    one with the [rounders] table and a [rebase] that returns the rebased
    instance), and the properties of its specification.

    Instances are JavaScript objects: they live in a store, methods receive
    references, [clone] allocates, and [rebase] assigns to fields.  Methods
    are therefore written in a state-and-exception monad over that store. *)

From Stdlib Require Import ZArith String Ascii QArith Qabs Lia.
From Stdlib Require Import Decimal DecimalFacts DecimalPos DecimalZ DecimalString.
From stdpp Require Import base list.
From Equations Require Import Equations.

Local Open Scope Z_scope.

Ltac Zify.zify_post_hook ::= Z.to_euclidean_division_equations.

(** ** JavaScript values used by the class *)

(** What a call can throw.  [Thrown] is the [throw '...'] of a string. *)
Inductive exn : Type :=
| RangeError
| SyntaxError
| TypeError
| Thrown (msg : string).

Inductive outcome (A : Type) : Type :=
| Ok (a : A)
| Throw (e : exn).
Arguments Ok {A} a.
Arguments Throw {A} e.

(** *** bigint operators

    [/] truncates toward zero and [%] takes the sign of the dividend; both
    throw a RangeError on a zero divisor, and [**] on a negative exponent. *)
Module BigInt.

Definition div (a b : Z) : outcome Z :=
  if b =? 0 then Throw RangeError else Ok (Z.quot a b).

Definition rem (a b : Z) : outcome Z :=
  if b =? 0 then Throw RangeError else Ok (Z.rem a b).

Definition pow (a e : Z) : outcome Z :=
  if e <? 0 then Throw RangeError else Ok (a ^ e).

(** [BigInt.prototype.toString()]: decimal digits, [-] for negatives. *)
Definition toString (z : Z) : string :=
  NilZero.string_of_int (Z.to_int z).

(** StringToBigInt: the digits of a literal in the given radix. *)
Definition digit_value (radix : Z) (c : ascii) : option Z :=
  let n := Z.of_nat (nat_of_ascii c) in
  let d := if (48 <=? n) && (n <=? 57) then Some (n - 48)
           else if (97 <=? n) && (n <=? 102) then Some (n - 87)
           else if (65 <=? n) && (n <=? 70) then Some (n - 55)
           else None in
  match d with
  | Some v => if v <? radix then Some v else None
  | None => None
  end.

Fixpoint digits_value (radix : Z) (acc : Z) (s : string) : option Z :=
  match s with
  | EmptyString => Some acc
  | String c rest =>
      match digit_value radix c with
      | Some v => digits_value radix (acc * radix + v) rest
      | None => None
      end
  end.

(** A non-empty run of digits. *)
Definition literal (radix : Z) (s : string) : option Z :=
  match s with
  | EmptyString => None
  | _ => digits_value radix 0 s
  end.

Definition is_space (c : ascii) : bool :=
  let n := nat_of_ascii c in
  (Nat.eqb n 32 || (Nat.leb 9 n && Nat.leb n 13))%bool.

Fixpoint trim_start (s : string) : string :=
  match s with
  | String c rest => if is_space c then trim_start rest else s
  | EmptyString => EmptyString
  end.

Fixpoint trim_end (s : string) : string :=
  match s with
  | String c rest =>
      match trim_end rest with
      | EmptyString => if is_space c then EmptyString else String c EmptyString
      | t => String c t
      end
  | EmptyString => EmptyString
  end.

(** The radix of a [0x], [0o] or [0b] literal, and its digits. *)
Definition radix_prefix (s : string) : option (Z * string) :=
  match s with
  | String lead (String letter digits) =>
      if Ascii.eqb lead "0" then
        if Ascii.eqb letter "x" || Ascii.eqb letter "X" then Some (16, digits)
        else if Ascii.eqb letter "o" || Ascii.eqb letter "O" then Some (8, digits)
        else if Ascii.eqb letter "b" || Ascii.eqb letter "B" then Some (2, digits)
        else None
      else None
  | _ => None
  end.

(** [BigInt(string)]: white space is trimmed, the empty string is [0n],
    a decimal literal may carry a sign, a [0x], [0o] or [0b] literal may
    not; anything else is a SyntaxError. *)
Definition of_string (s : string) : outcome Z :=
  let of_option (o : option Z) :=
    match o with Some z => Ok z | None => Throw SyntaxError end in
  match trim_end (trim_start s) with
  | EmptyString => Ok 0
  | String c rest as t =>
      if Ascii.eqb c "-" then of_option (option_map Z.opp (literal 10 rest))
      else if Ascii.eqb c "+" then of_option (literal 10 rest)
      else match radix_prefix t with
           | Some (radix, digits) => of_option (literal radix digits)
           | None => of_option (literal 10 t)
           end
  end.

End BigInt.

(** *** string methods *)
Module JsString.

Definition length (s : string) : Z := Z.of_nat (String.length s).

(** [s.indexOf(c)] for a one-character pattern, [-1] when absent. *)
Fixpoint indexOf (s : string) (c : ascii) : Z :=
  match s with
  | EmptyString => -1
  | String a rest =>
      if Ascii.eqb a c then 0
      else let i := indexOf rest c in if i <? 0 then -1 else i + 1
  end.

Definition includes (s : string) (c : ascii) : bool :=
  negb (indexOf s c <? 0).

(** [s.split(c)]: the pieces between the occurrences of [c]. *)
Fixpoint split (s : string) (c : ascii) : list string :=
  match s with
  | EmptyString => [EmptyString]
  | String a rest =>
      if Ascii.eqb a c then EmptyString :: split rest c
      else match split rest c with
           | piece :: pieces => String a piece :: pieces
           | [] => [String a EmptyString]
           end
  end.

Definition join (pieces : list string) (sep : string) : string :=
  String.concat sep pieces.

Fixpoint repeat (c : ascii) (n : nat) : string :=
  match n with
  | O => EmptyString
  | S k => String c (repeat c k)
  end.

(** [s.padStart(n, c)] and [s.padEnd(n, c)] with a one-character filler. *)
Definition padStart (s : string) (n : Z) (c : ascii) : string :=
  (repeat c (Z.to_nat (n - length s)) ++ s)%string.

Definition padEnd (s : string) (n : Z) (c : ascii) : string :=
  (s ++ repeat c (Z.to_nat (n - length s)))%string.

(** Relative index of [slice]: negative counts from the end, then clamp. *)
Definition relative (len i : Z) : Z :=
  if i <? 0 then Z.max (len + i) 0 else Z.min i len.

(** [s.slice(from, to)]; [to] omitted means the length. *)
Definition slice (s : string) (from : Z) (to : option Z) : string :=
  let len := length s in
  let k := relative len from in
  let final := match to with Some e => relative len e | None => len end in
  substring (Z.to_nat k) (Z.to_nat (final - k)) s.

End JsString.

(** ** The class *)
Module BigN.

(** The five fields of an instance. *)
Record N : Type := mkN {
  decimals : Z;
  decimalsFactor : Z;
  value : Z;
  precision : Z;
  factor : Z
}.

Definition set_value (v : Z) (o : N) : N :=
  mkN (decimals o) (decimalsFactor o) v (precision o) (factor o).
Definition set_precision (p : Z) (o : N) : N :=
  mkN (decimals o) (decimalsFactor o) (value o) p (factor o).
Definition set_factor (f : Z) (o : N) : N :=
  mkN (decimals o) (decimalsFactor o) (value o) (precision o) f.

(** References to instances, and the store: the objects allocated so far
    in allocation order, with what [console.assert] has reported. *)
Definition ref : Type := nat.

Record state : Type := mkState {
  heap : list N;
  stderr : list string
}.

Definition set_heap (h : list N) (s : state) : state := mkState h (stderr s).

(** [NLike = string | number | bigint | N].  A [number] is an integer
    here: [BigInt] refuses the others. *)
Inductive NLike : Type :=
| Str (s : string)
| Num (n : Z)
| Big (n : Z)
| Obj (r : ref).

(** *** The monad of method bodies *)
Definition Js (A : Type) : Type := state -> outcome A * state.

Definition ret {A} (a : A) : Js A := fun s => (Ok a, s).

Definition throw {A} (e : exn) : Js A := fun s => (Throw e, s).

Definition bind {A B} (m : Js A) (k : A -> Js B) : Js B :=
  fun s => match m s with
           | (Ok a, s') => k a s'
           | (Throw e, s') => (Throw e, s')
           end.

Definition lift {A} (o : outcome A) : Js A := fun s => (o, s).

Declare Scope js_scope.
Delimit Scope js_scope with js.
Notation "x <- m ;; k" := (bind m (fun x => k))
  (at level 100, m at next level, right associativity) : js_scope.
Notation "m ;; k" := (bind m (fun _ => k))
  (at level 100, right associativity) : js_scope.
Local Open Scope js_scope.

(** [new] puts the finished object at the next free address. *)
Definition alloc (o : N) : Js ref :=
  fun s => (Ok (List.length (heap s)), set_heap (heap s ++ [o]) s).

(** Reading through a reference.  JavaScript has no reference to an object
    that was not allocated; here such a read throws. *)
Definition load (r : ref) : Js N :=
  fun s => match heap s !! r with
           | Some o => (Ok o, s)
           | None => (Throw TypeError, s)
           end.

Definition get {A} (field : N -> A) (r : ref) : Js A :=
  o <- load r ;; ret (field o).

(** [r.field = v] *)
Definition assign (r : ref) (update : N -> N) : Js unit :=
  o <- load r ;; fun s => (Ok tt, set_heap (<[r := update o]> (heap s)) s).

(** [console.assert]: reports on a false condition, never throws. *)
Definition assert (condition : bool) (message : string) : Js unit :=
  fun s => (Ok tt, if condition then s
                   else mkState (heap s) (stderr s ++ [message])).

(** *** Global settings *)
Inductive ROUNDING_MODES : Type :=
| DOWN
| UP
| TOWARD_ZERO
| HALF_AWAY_FROM_ZERO
| CUSTOM.

Definition Rounder : Type := Z -> Z -> Z.

Record Settings : Type := mkSettings {
  DEFAULT_PRECISION : Z;
  ROUNDING_MODE : ROUNDING_MODES;
  ROUNDING_CUSTOM_FUNCTION : Rounder
}.

(** The values the class starts with. *)
Definition defaults : Settings :=
  mkSettings 80 HALF_AWAY_FROM_ZERO (fun _ _ => 0).

(** *** The rounders table *)
Definition sign_of (v : Z) : Z := if v <? 0 then -1 else 1.

Definition rounders (custom : Rounder) (mode : ROUNDING_MODES)
    (v f : Z) : outcome Z :=
  match mode with
  | DOWN =>
      let sign := sign_of v in
      match BigInt.rem (sign * v) f with
      | Ok r => Ok (if r =? 0 then 0 else if sign <? 0 then -1 else 0)
      | Throw e => Throw e
      end
  | UP =>
      let sign := sign_of v in
      match BigInt.rem (sign * v) f with
      | Ok r => Ok (if r =? 0 then 0 else if sign <? 0 then 0 else 1)
      | Throw e => Throw e
      end
  | TOWARD_ZERO => Ok 0
  | HALF_AWAY_FROM_ZERO =>
      let sign := sign_of v in
      match BigInt.rem (sign * v) f with
      | Ok r => Ok (if Z.shiftl r 1 >=? f then sign else 0)
      | Throw e => Throw e
      end
  | CUSTOM => Ok (custom v f)
  end.

(** The Newton loop of [sqrt]:
    [while (z < y) { y = z; z = (x / z + z) / 2n }], whose result is [y].
    The measure bounds [y] from below by what [z] can reach. *)
Definition sqrt_measure (x z y : Z) : nat :=
  Z.to_nat (y + Z.max (Z.abs x) (Z.max (Z.abs z) (Z.abs y))).

Equations? sqrt_loop (x z y : Z) : outcome Z by wf (sqrt_measure x z y) Nat.lt :=
  sqrt_loop x z y with Equations.Prop.Logic.inspect (z <? y) := {
    | exist _ true Hlt with Equations.Prop.Logic.inspect (BigInt.div x z) := {
        | exist _ (Throw e) _ => Throw e
        | exist _ (Ok q) Hq with Equations.Prop.Logic.inspect (BigInt.div (q + z) 2) := {
            | exist _ (Throw e) _ => Throw e
            | exist _ (Ok z') Hz' => sqrt_loop x z' z } }
    | exist _ false _ => Ok y }.
Proof.
  unfold BigInt.div in Hq.
  destruct (z =? 0) eqn:Hz0; [discriminate|].
  injection Hq as <-.
  apply Z.eqb_neq in Hz0. apply Z.ltb_lt in Hlt.
  assert (Z.abs (Z.quot x z) <= Z.abs x) as Hq.
  { rewrite <- Z.quot_abs by assumption.
    apply Z.quot_le_upper_bound; [lia | nia]. }
  clear sqrt_loop. unfold sqrt_measure, Nat.lt.
  generalize dependent (Z.quot x z). intros q Hq.
  apply Z2Nat.inj_lt; lia.
Qed.

(** *** Construction and methods *)
Section Methods.

Variable settings : Settings.

(** The constructor body once the fields are to be computed: [raw] is
    [BigInt(value)], evaluated where the source evaluates it.  The closing
    [console.debug] writes to the standard output, which is not kept. *)
Definition init (raw : outcome Z) (decimals precision : Z)
    (isPrecise : bool) : Js N :=
  assert (decimals >=? 0) "Decimals cannot be negative." ;;
  decimalsFactor <- lift (BigInt.pow 10 decimals) ;;
  let precision := if precision <? decimals then decimals else precision in
  factor <- lift (BigInt.pow 10 precision) ;;
  if isPrecise then
    magnitude <- lift raw ;;
    ret (mkN decimals decimalsFactor magnitude precision factor)
  else
    magnitude <- lift raw ;;
    scaled <- lift (BigInt.div (magnitude * factor) decimalsFactor) ;;
    ret (mkN decimals decimalsFactor scaled precision factor).

(** [constructor(value = 0, decimals = 0, precision = DEFAULT_PRECISION,
    options)]: the fields of [this] when the constructor returns. *)
Definition constructor (value : option NLike) (decimals precision : option Z)
    (isPrecise : bool) : Js N :=
  let value := default (Num 0) value in
  let decimals := default 0 decimals in
  let precision := default (DEFAULT_PRECISION settings) precision in
  match value with
  | Obj instance => load instance
  | Str s =>
      if JsString.includes s "." then
        let decimals := JsString.length s - 1 - JsString.indexOf s "." in
        let s := JsString.join (JsString.split s ".") EmptyString in
        let precision := if precision =? 0 then decimals else precision in
        init (BigInt.of_string s) decimals precision isPrecise
      else init (BigInt.of_string s) decimals precision isPrecise
  | Num n | Big n => init (Ok n) decimals precision isPrecise
  end.

(** [new N(value, decimals, precision, options)] *)
Definition new (value : option NLike) (decimals precision : option Z)
    (isPrecise : bool) : Js ref :=
  this <- constructor value decimals precision isPrecise ;;
  alloc this.

Definition clone (this : ref) : Js ref :=
  new (Some (Obj this)) None None false.

Definition rounder (this : ref) (v f : option Z) : Js Z :=
  v <- match v with Some v => ret v | None => get value this end ;;
  f <- match f with Some f => ret f | None => get factor this end ;;
  lift (rounders (ROUNDING_CUSTOM_FUNCTION settings)
                 (ROUNDING_MODE settings) v f).

Definition valueOf (this : ref) : Js Z :=
  v <- get value this ;;
  f <- get factor this ;;
  q <- lift (BigInt.div v f) ;;
  carry <- rounder this None None ;;
  ret (q + carry).

Definition toPrecise (this : ref) : Js Z := get value this.

(** [toDecimal(precision = this.decimals)]; the argument is [places]
    here, [precision] being the field. *)
Definition toDecimal (this : ref) (places : option Z) : Js Z :=
  places <- match places with
            | Some p => ret p
            | None => get decimals this
            end ;;
  own <- get precision this ;;
  if places <? own then
    newDecimalsFactor <- lift (BigInt.pow 10 (own - places)) ;;
    v <- get value this ;;
    q <- lift (BigInt.div v newDecimalsFactor) ;;
    carry <- rounder this (Some v) (Some newDecimalsFactor) ;;
    ret (q + carry)
  else
    v <- get value this ;;
    e <- lift (BigInt.pow 10 (places - own)) ;;
    ret (v * e).

(** [toString(precision = this.decimals)] *)
Definition toString (this : ref) (places : option Z) : Js string :=
  places <- match places with
            | Some p => ret p
            | None => get decimals this
            end ;;
  d <- toDecimal this (Some places) ;;
  let decimal := JsString.padStart (BigInt.toString d) places "0" in
  ret (if places >? 0
       then (JsString.slice decimal 0 (Some (- places)) ++ "."
             ++ JsString.slice decimal (- places) None)%string
       else (decimal ++ JsString.padEnd EmptyString (- places) "0")%string).

(** This is an internal shortcut for the constructor. *)
Definition nfy (this : ref) (instance : NLike) : Js ref :=
  match instance with
  | Obj r => clone r
  | _ => own <- get precision this ;;
         new (Some instance) (Some 0) (Some own) false
  end.

(** Bring both operands to the same (higher) precision of both. *)
Definition rebase (this : ref) (instance : NLike) : Js ref :=
  instance <- nfy this instance ;;
  theirs <- get precision instance ;;
  own <- get precision this ;;
  if theirs <? own then
    v <- get value instance ;;
    e <- lift (BigInt.pow 10 (own - theirs)) ;;
    assign instance (set_value (v * e)) ;;
    p <- get precision this ;;
    assign instance (set_precision p) ;;
    f <- get factor this ;;
    assign instance (set_factor f) ;;
    ret instance
  else if theirs >? own then
    v <- get value this ;;
    e <- lift (BigInt.pow 10 (theirs - own)) ;;
    assign this (set_value (v * e)) ;;
    p <- get precision instance ;;
    assign this (set_precision p) ;;
    f <- get factor instance ;;
    assign this (set_factor f) ;;
    ret instance
  else ret instance.

(** **** Arithmetics *)
Definition plus (this : ref) (Addend : NLike) : Js ref :=
  Augend <- clone this ;;
  rebased <- rebase Augend Addend ;;
  addend <- get value rebased ;;
  augend <- get value Augend ;;
  assign Augend (set_value (augend + addend)) ;;
  ret Augend.

Definition minus (this : ref) (Subtrahend : NLike) : Js ref :=
  Minuend <- clone this ;;
  rebased <- rebase Minuend Subtrahend ;;
  subtrahend <- get value rebased ;;
  minuend <- get value Minuend ;;
  assign Minuend (set_value (minuend - subtrahend)) ;;
  ret Minuend.

Definition mul (this : ref) (Factor : NLike) : Js ref :=
  Multiplier <- clone this ;;
  rebased <- rebase Multiplier Factor ;;
  multiplicand <- get value rebased ;;
  multiplier <- get value Multiplier ;;
  f <- get factor this ;;
  q <- lift (BigInt.div (multiplier * multiplicand) f) ;;
  assign Multiplier (set_value q) ;;
  ret Multiplier.

Definition multipliedBy (this : ref) (Factor : NLike) : Js ref :=
  mul this Factor.

Definition div (this : ref) (Divisor : NLike) : Js ref :=
  Dividend <- clone this ;;
  rebased <- rebase Dividend Divisor ;;
  divisor <- get value rebased ;;
  dividend <- get value Dividend ;;
  f <- get factor this ;;
  q <- lift (BigInt.div (f * dividend) divisor) ;;
  assign Dividend (set_value q) ;;
  ret Dividend.

Definition sq (this : ref) : Js ref := mul this (Obj this).

Definition sqrt (this : ref) : Js ref :=
  Radicand <- clone this ;;
  v <- get value Radicand ;;
  f <- get factor Radicand ;;
  let x := v * f in
  if x <? 0 then
    throw (Thrown "square root of negative numbers is not supported")
  else if x <? 2 then ret Radicand
  else
    half <- lift (BigInt.div x 2) ;;
    y <- lift (sqrt_loop x (half + 1) x) ;;
    assign Radicand (set_value y) ;;
    ret Radicand.

(** **** Comparisons *)
Definition compare (test : Z -> Z -> bool) (this : ref)
    (Comparand : NLike) : Js bool :=
  Compared <- clone this ;;
  rebased <- rebase Compared Comparand ;;
  comparand <- get value rebased ;;
  compared <- get value Compared ;;
  ret (test compared comparand).

Definition eq : ref -> NLike -> Js bool := compare Z.eqb.
Definition lt : ref -> NLike -> Js bool := compare Z.ltb.
Definition lte : ref -> NLike -> Js bool := compare Z.leb.
Definition gt : ref -> NLike -> Js bool := compare Z.gtb.
Definition gte : ref -> NLike -> Js bool := compare Z.geb.

End Methods.

(** *** The public interface as calls

    One constructor per public operation of the class; [perform] runs it.
    A reachable store is one that a sequence of such calls builds from
    the empty store, under any settings in force at each call. *)
Inductive call : Type :=
| New (value : option NLike) (decimals precision : option Z) (isPrecise : bool)
| Clone (this : ref)
| ValueOf (this : ref)
| ToPrecise (this : ref)
| ToDecimal (this : ref) (places : option Z)
| ToString (this : ref) (places : option Z)
| Plus (this : ref) (other : NLike)
| Minus (this : ref) (other : NLike)
| Mul (this : ref) (other : NLike)
| MultipliedBy (this : ref) (other : NLike)
| Div (this : ref) (other : NLike)
| Sq (this : ref)
| Sqrt (this : ref)
| Eq (this : ref) (other : NLike)
| Lt (this : ref) (other : NLike)
| Lte (this : ref) (other : NLike)
| Gt (this : ref) (other : NLike)
| Gte (this : ref) (other : NLike).

Inductive answer : Type :=
| Instance (r : ref)
| Bigint (z : Z)
| Text (s : string)
| Boolean (b : bool).

Definition answering {A} (wrap : A -> answer) (m : Js A) : Js answer :=
  bind m (fun a => ret (wrap a)).

Definition perform (settings : Settings) (c : call) : Js answer :=
  match c with
  | New v d p b => answering Instance (new settings v d p b)
  | Clone this => answering Instance (clone settings this)
  | ValueOf this => answering Bigint (valueOf settings this)
  | ToPrecise this => answering Bigint (toPrecise this)
  | ToDecimal this places => answering Bigint (toDecimal settings this places)
  | ToString this places => answering Text (toString settings this places)
  | Plus this other => answering Instance (plus settings this other)
  | Minus this other => answering Instance (minus settings this other)
  | Mul this other => answering Instance (mul settings this other)
  | MultipliedBy this other => answering Instance (multipliedBy settings this other)
  | Div this other => answering Instance (div settings this other)
  | Sq this => answering Instance (sq settings this)
  | Sqrt this => answering Instance (sqrt settings this)
  | Eq this other => answering Boolean (eq settings this other)
  | Lt this other => answering Boolean (lt settings this other)
  | Lte this other => answering Boolean (lte settings this other)
  | Gt this other => answering Boolean (gt settings this other)
  | Gte this other => answering Boolean (gte settings this other)
  end.

Definition empty : state := mkState [] [].

Inductive reachable : state -> Prop :=
| reachable_empty : reachable empty
| reachable_call settings c s o s' :
    reachable s -> perform settings c s = (o, s') -> reachable s'.

(** *** Reading instances *)

(** The representation invariant of the data model. *)
Definition invariant (o : N) : Prop :=
  factor o = 10 ^ precision o /\
  decimalsFactor o = 10 ^ decimals o /\
  0 <= decimals o <= precision o.

(** The exact decimal value an instance stands for. *)
Definition exact (o : N) : Q :=
  (inject_Z (value o) / inject_Z (factor o))%Q.

(** The two operands after [own.rebase(theirs)], [theirs] being the
    fresh copy made by [nfy]. *)
Definition raised (p f e : Z) (o : N) : N :=
  set_factor f (set_precision p (set_value (value o * 10 ^ e) o)).

Definition rebased (own theirs : N) : N * N :=
  if precision theirs <? precision own then
    (own, raised (precision own) (factor own)
                 (precision own - precision theirs) theirs)
  else if precision theirs >? precision own then
    (raised (precision theirs) (factor theirs)
            (precision theirs - precision own) own, theirs)
  else (own, theirs).

(** A call only adds objects to the store, and objects that satisfy the
    invariant when the ones it found did. *)
Definition grows (s s' : state) : Prop :=
  exists added,
    heap s' = heap s ++ added /\
    (Forall invariant (heap s) -> Forall invariant added).

(** How the methods that divide end, the copy [A'] of the receiver and
    the copy [I'] of the operand being the two newest objects: the
    quotient becomes the value of [A'], or the RangeError of a zero
    divisor leaves both as they are. *)
Definition finish (h : list N) (err : list string) (A' I' : N)
    (q : outcome Z) : outcome ref * state :=
  match q with
  | Ok v => (Ok (List.length h), mkState (h ++ [set_value v A'; I']) err)
  | Throw e => (Throw e, mkState (h ++ [A'; I']) err)
  end.

(** The carry under the settings in force. *)
Definition carry_of (settings : Settings) (v f : Z) : outcome Z :=
  rounders (ROUNDING_CUSTOM_FUNCTION settings) (ROUNDING_MODE settings) v f.

(** A call that returns, as opposed to one that throws. *)
Definition returns {A} (m : Js A) (s : state) : Prop :=
  exists a s', m s = (Ok a, s').

(** The values for which the constructor does not use its [decimals]
    argument: an instance is copied, a string with a point carries its
    own count of decimals. *)
Definition decimals_ignored (v : NLike) : bool :=
  match v with
  | Obj _ => true
  | Str s => JsString.includes s "."
  | Num _ | Big _ => false
  end.

(** The instance a call returns is a new one. *)
Definition fresh (s : state) (out : outcome ref) (s' : state) : Prop :=
  forall r, out = Ok r -> heap s !! r = None /\ is_Some (heap s' !! r).

(** A method that only reads. *)
Definition readonly {A} (m : Js A) : Prop :=
  forall s out s', m s = (out, s') -> s' = s.

(** What any [new] does to the store: nothing when it throws, otherwise
    one more object at the next address. *)
Definition allocated (s : state) (out : outcome ref) (s' : state) : Prop :=
  (exists e, out = Throw e /\ heap s' = heap s) \/
  (exists o, out = Ok (List.length (heap s)) /\ heap s' = heap s ++ [o] /\
             (Forall invariant (heap s) -> invariant o)).

(** A number or bigint operand [n] as [nfy] makes it for a receiver of
    precision [p]: an instance of no decimals at that precision. *)
Definition integer_at (p n : Z) : N := mkN 0 1 (n * 10 ^ p) p (10 ^ p).

(** The calls that read the default precision: a construction from a
    value that is not an instance, with no precision given. *)
Definition reads_default_precision (c : call) : bool :=
  match c with
  | New (Some (Obj _)) _ _ _ => false
  | New _ _ None _ => true
  | _ => false
  end.

(** The calls that read the rounding mode. *)
Definition rounds (c : call) : bool :=
  match c with
  | ValueOf _ | ToDecimal _ _ | ToString _ _ => true
  | _ => false
  end.

End BigN.

Import BigN.
Local Open Scope js_scope.

(** ** The colors of the test messages *)
Module colors.

Local Open Scope string_scope.

(** The escape character, [\x1b]. *)
Definition esc : ascii := "027"%char.

Definition reset : string := String esc "[0m".
Definition bright : string := String esc "[1m".
Definition dim : string := String esc "[2m".
Definition italic : string := String esc "[3m".
Definition underscore : string := String esc "[4m".
Definition blink : string := String esc "[5m".
Definition reverse : string := String esc "[7m".
Definition hidden : string := String esc "[8m".

Module fg.
Definition black : string := String esc "[30m".
Definition red : string := String esc "[31m".
Definition green : string := String esc "[32m".
Definition yellow : string := String esc "[33m".
Definition blue : string := String esc "[34m".
Definition magenta : string := String esc "[35m".
Definition cyan : string := String esc "[36m".
Definition white : string := String esc "[37m".
Definition crimson : string := String esc "[38m".
End fg.

Module bg.
Definition black : string := String esc "[40m".
Definition red : string := String esc "[41m".
Definition green : string := String esc "[42m".
Definition yellow : string := String esc "[43m".
Definition blue : string := String esc "[44m".
Definition magenta : string := String esc "[45m".
Definition cyan : string := String esc "[46m".
Definition white : string := String esc "[47m".
Definition crimson : string := String esc "[48m".
End bg.

(** [\d] *)
Definition is_digit (c : ascii) : bool :=
  let n := nat_of_ascii c in (Nat.leb 48 n && Nat.leb n 57)%bool.

(** The length of a match of [\d+m], case ignored, at the start of [s];
    [seen] tells that a digit has been read. *)
Fixpoint digits_m (seen : bool) (s : string) : option nat :=
  match s with
  | String c rest =>
      if is_digit c then option_map S (digits_m true rest)
      else if (seen && (Ascii.eqb c "m" || Ascii.eqb c "M"))%bool then Some 1%nat
      else None
  | EmptyString => None
  end.

(** The length of a match of [/\x1B\[\d+m/i] at the start of [s]. *)
Definition escape_length (s : string) : option nat :=
  match s with
  | String c (String b rest) =>
      if (Ascii.eqb c esc && Ascii.eqb b "[")%bool
      then option_map (fun n => S (S n)) (digits_m false rest)
      else None
  | _ => None
  end.

(** [str.replace(/\x1B\[\d+m/gi, '')]: every match is dropped, from left
    to right; [skip] counts what is left of the match being dropped. *)
Fixpoint replace_escapes (skip : nat) (s : string) : string :=
  match s with
  | EmptyString => EmptyString
  | String c rest =>
      match skip with
      | S k => replace_escapes k rest
      | O =>
          match escape_length s with
          | Some (S k) => replace_escapes k rest
          | _ => String c (replace_escapes 0 rest)
          end
      end
  end.

Definition uncolorize (str : string) : string := replace_escapes 0 str.

(** The arguments of a [Colorizer]: one value, or the strings and the
    values of a tagged template; a value is the string that [`${...}`]
    and [+] make of it. *)
Inductive Messages : Type :=
| Message (message : string)
| TemplateArgs (strs : list string) (values : list string).

Definition isTemplate (messages : Messages) : bool :=
  match messages with
  | TemplateArgs _ _ => true
  | Message _ => false
  end.

(** [strs.reduce((prev, current, ix) => prev + (current ?? '') +
    (args[ix] ?? ''), '')] *)
Fixpoint interlace (strs args : list string) : string :=
  match strs with
  | [] => EmptyString
  | current :: strs =>
      current ++ List.hd EmptyString args ++ interlace strs (List.tl args)
  end.

Definition extractMessage (messages : Messages) : string :=
  match messages with
  | TemplateArgs strs values => interlace strs values
  | Message message => message
  end.

Definition Colorizer : Type := Messages -> string.

Definition red : Colorizer :=
  fun messages => fg.red ++ extractMessage messages ++ reset.
Definition green : Colorizer :=
  fun messages => fg.green ++ extractMessage messages ++ reset.
Definition dyeRed : Colorizer :=
  fun messages => bg.red ++ fg.black ++ extractMessage messages ++ reset.

End colors.

(** ** The matchers for jest *)
Module jestMatchers.

Section Matchers.

Variable settings : Settings.

(** The numbers of JavaScript, with the operations the matchers use. *)
Variable number : Type.
Variable number_toString : number -> string.
Variable ten zero : number.
Variable pow div sub : number -> number -> number.
Variable strict_equal : number -> number -> bool.

(** What the matchers compare and print. *)
Inductive any : Type :=
| AnN (r : ref)
| ABigint (z : Z)
| ANumber (x : number).

(** The string of a value in a template literal. *)
Definition String_of (x : any) : Js string :=
  match x with
  | AnN r => toString settings r None
  | ABigint z => ret (BigInt.toString z)
  | ANumber x => ret (number_toString x)
  end.

Definition quote : string := String "034"%char EmptyString.
Definition newline : string := String "010"%char EmptyString.

(** The message of a matcher, made when jest asks for it. *)
Definition jestMessage (name : string) (actual expected : any) : Js string :=
  e <- String_of expected ;;
  a <- String_of actual ;;
  ret ("expect(" ++ colors.red (colors.TemplateArgs ["received"%string] []) ++ ")"
       ++ name ++ "(" ++ colors.green (colors.TemplateArgs ["expected"%string] []) ++ ")"
       ++ newline ++ newline
       ++ "Expected: " ++ quote ++ colors.green (colors.Message e) ++ quote
       ++ newline
       ++ "Received: " ++ quote ++ colors.red (colors.Message a) ++ quote)%string.

Record MatcherResult : Type := mkResult {
  message : Js string;
  pass : bool
}.

(** [N_toExactlyMatch(actual, expected)] *)
Definition N_toExactlyMatch (actual expected : ref) : Js MatcherResult :=
  let pass := true in
  a <- get value actual ;; e <- get value expected ;;
  let pass := if negb (a =? e) then false else pass in
  a <- get decimals actual ;; e <- get decimals expected ;;
  let pass := if negb (a =? e) then false else pass in
  a <- get decimalsFactor actual ;; e <- get decimalsFactor expected ;;
  let pass := if negb (a =? e) then false else pass in
  a <- get precision actual ;; e <- get precision expected ;;
  let pass := if negb (a =? e) then false else pass in
  a <- get factor actual ;; e <- get factor expected ;;
  let pass := if negb (a =? e) then false else pass in
  if pass then
    ret (mkResult (jestMessage ".not.N_toExactlyMatch" (AnN actual) (AnN expected))
                  true)
  else
    ret (mkResult (jestMessage ".N_toExactlyMatch" (AnN actual) (AnN expected))
                  false).

(** [precision?: bigint | number] *)
Inductive cutoff : Type :=
| BigintCutoff (p : Z)
| NumberCutoff (p : number).

(** [N_toBeAround(actual, expected, precision?)].  An instance is taken
    by its [toDecimal()].  The two branches test [typeof precision]
    first, so [precision ??= 0n] and [precision ??= 0] inside them find
    it defined and do nothing. *)
Definition N_toBeAround (actual expected : any) (precision : option cutoff)
    : Js MatcherResult :=
  let pass := false in
  actual <- match actual with
            | AnN r => z <- toDecimal settings r None ;; ret (ABigint z)
            | _ => ret actual
            end ;;
  expected <- match expected with
              | AnN r => z <- toDecimal settings r None ;; ret (ABigint z)
              | _ => ret expected
              end ;;
  outcome <-
    match actual, expected, precision with
    | ABigint a, ABigint e, Some (BigintCutoff p) =>
        f <- lift (BigInt.pow 10 p) ;;
        a <- lift (BigInt.div a f) ;;
        f <- lift (BigInt.pow 10 p) ;;
        e <- lift (BigInt.div e f) ;;
        ret (ABigint a, ABigint e, a - e =? 0)
    | ANumber a, ANumber e, Some (NumberCutoff p) =>
        let a := div a (pow ten p) in
        let e := div e (pow ten p) in
        ret (ANumber a, ANumber e, strict_equal (sub a e) zero)
    | _, _, _ => ret (actual, expected, pass)
    end ;;
  let '(actual, expected, pass) := outcome in
  if pass then
    ret (mkResult (jestMessage ".not.N_toBeAround" actual expected) true)
  else
    ret (mkResult (jestMessage ".N_toBeAround" actual expected) false).

(** The bigint that [N_toBeAround] compares: [toDecimal()] of an
    instance, a bigint itself, nothing for a number. *)
Definition compared (x : any) (s : state) : option Z :=
  match x with
  | AnN r => match toDecimal settings r None s with
             | (Ok z, _) => Some z
             | (Throw _, _) => None
             end
  | ABigint z => Some z
  | ANumber _ => None
  end.

End Matchers.

End jestMatchers.

(** * Properties *)

(** ** The store *)
Section Store.

Implicit Types (h rest : list N) (o : N) (s : state).

Lemma at_top h o rest : (h ++ o :: rest) !! length h = Some o.
Proof. by apply list_lookup_middle. Qed.

Lemma at_next h o o' rest : (h ++ o :: o' :: rest) !! S (length h) = Some o'.
Proof.
  change (h ++ o :: o' :: rest) with (h ++ [o] ++ o' :: rest).
  rewrite app_assoc. apply list_lookup_middle.
  rewrite length_app. simpl. lia.
Qed.

Lemma set_top h o o' rest : <[length h := o']> (h ++ o :: rest) = h ++ o' :: rest.
Proof. rewrite insert_app_r_alt by lia. by rewrite Nat.sub_diag. Qed.

Lemma set_next h o o' o'' rest :
  <[S (length h) := o'']> (h ++ o :: o' :: rest) = h ++ o :: o'' :: rest.
Proof.
  rewrite insert_app_r_alt by lia.
  by replace (S (length h) - length h)%nat with 1%nat by lia.
Qed.

Lemma length_snoc h o : length (h ++ [o]) = S (length h).
Proof. rewrite length_app. simpl. lia. Qed.

Lemma snoc_snoc h o o' : (h ++ [o]) ++ [o'] = h ++ [o; o'].
Proof. by rewrite <- app_assoc. Qed.

Lemma bind_ok {A B} (m : Js A) (k : A -> Js B) s a s' :
  m s = (Ok a, s') -> bind m k s = k a s'.
Proof. unfold bind. by intros ->. Qed.

Lemma bind_throw {A B} (m : Js A) (k : A -> Js B) s e s' :
  m s = (Throw e, s') -> bind m k s = (Throw e, s').
Proof. unfold bind. by intros ->. Qed.

Lemma load_ok s r o : heap s !! r = Some o -> load r s = (Ok o, s).
Proof. unfold load. by intros ->. Qed.

Lemma get_ok {A} (field : N -> A) s r o :
  heap s !! r = Some o -> get field r s = (Ok (field o), s).
Proof. intros H. unfold get. by rewrite (bind_ok _ _ _ _ _ (load_ok _ _ _ H)). Qed.

Lemma assign_ok update s r o :
  heap s !! r = Some o ->
  assign r update s = (Ok tt, set_heap (<[r := update o]> (heap s)) s).
Proof. intros H. unfold assign. by rewrite (bind_ok _ _ _ _ _ (load_ok _ _ _ H)). Qed.

Lemma lift_ok {A} (o : outcome A) a s : o = Ok a -> lift o s = (Ok a, s).
Proof. unfold lift. by intros ->. Qed.

Lemma ret_ok {A} (a : A) s : ret a s = (Ok a, s).
Proof. reflexivity. Qed.

Lemma lift_throw {A} (o : outcome A) e s : o = Throw e -> lift o s = (Throw e, s).
Proof. unfold lift. by intros ->. Qed.

Lemma pow_ok a e : 0 <= e -> BigInt.pow a e = Ok (a ^ e).
Proof. intros H. unfold BigInt.pow. by rewrite (proj2 (Z.ltb_ge e 0)). Qed.

Lemma div_ok a b : b <> 0 -> BigInt.div a b = Ok (Z.quot a b).
Proof. intros H. unfold BigInt.div. by rewrite (proj2 (Z.eqb_neq b 0)). Qed.

Lemma rem_ok a b : b <> 0 -> BigInt.rem a b = Ok (Z.rem a b).
Proof. intros H. unfold BigInt.rem. by rewrite (proj2 (Z.eqb_neq b 0)). Qed.

End Store.

(** Runs the loads, stores and allocations at the top of a store [h ++ _]. *)
Ltac js_lookup :=
  cbn [heap set_heap];
  first [ apply at_top | apply at_next | eassumption ].

Ltac js_tidy :=
  cbn [heap stderr set_heap];
  rewrite ?set_top, ?set_next, ?length_snoc, ?snoc_snoc.

Ltac js_step :=
  first
    [ erewrite bind_ok by (apply get_ok; js_lookup)
    | erewrite bind_ok by (apply assign_ok; js_lookup)
    | erewrite bind_ok by (apply lift_ok; first [ reflexivity | apply pow_ok; lia | apply div_ok; lia | eassumption ])
    | erewrite bind_ok by (apply ret_ok) ];
  js_tidy.

Ltac js_run := js_tidy; repeat js_step; cbv beta; unfold ret; js_tidy.

(** ** Taking a run apart *)
Section Inversion.

Implicit Types (s : state) (o : N).

Lemma bind_inv {A B} (m : Js A) (k : A -> Js B) s out s' :
  bind m k s = (out, s') ->
  (exists a s1, m s = (Ok a, s1) /\ k a s1 = (out, s')) \/
  (exists e, m s = (Throw e, s') /\ out = Throw e).
Proof.
  unfold bind. destruct (m s) as [[a|e] s1]; intros H.
  - left. by exists a, s1.
  - right. exists e. by inversion H.
Qed.

Lemma load_inv s r out s' :
  load r s = (out, s') ->
  s' = s /\
  ((heap s !! r = None /\ out = Throw TypeError) \/
   (exists o, heap s !! r = Some o /\ out = Ok o)).
Proof.
  unfold load. destruct (heap s !! r) as [o|]; intros H; inversion H; subst.
  - split; [done|]. right. by exists o.
  - split; [done|]. by left.
Qed.

Lemma get_inv {A} (field : N -> A) s r out s' :
  get field r s = (out, s') ->
  s' = s /\
  ((heap s !! r = None /\ out = Throw TypeError) \/
   (exists o, heap s !! r = Some o /\ out = Ok (field o))).
Proof.
  unfold get. intros H.
  apply bind_inv in H as [(o & s1 & H1 & H2) | (e & H1 & ->)];
    apply load_inv in H1 as [-> [[Hr Ho] | (o' & Hr & Ho)]];
    try discriminate.
  - inversion Ho; subst. inversion H2; subst. split; [done|]. right. by exists o'.
  - inversion Ho; subst. split; [done|]. by left.
Qed.

Lemma lift_inv {A} (x : outcome A) s out s' :
  lift x s = (out, s') -> s' = s /\ out = x.
Proof. unfold lift. intros H. by inversion H. Qed.

Lemma assert_inv c msg s out s' :
  assert c msg s = (out, s') -> heap s' = heap s /\ out = Ok tt.
Proof. unfold assert. intros H. inversion H. by destruct c. Qed.

End Inversion.

(** ** Construction *)
Section Construction.

Variable settings : Settings.
Implicit Types (s : state) (o : N).

Lemma init_inv raw d p b s out s' :
  init raw d p b s = (out, s') ->
  heap s' = heap s /\
  forall o, out = Ok o ->
    0 <= d /\
    decimals o = d /\ decimalsFactor o = 10 ^ d /\
    precision o = Z.max p d /\ factor o = 10 ^ Z.max p d.
Proof.
  unfold init. intros H.
  apply bind_inv in H as [([] & s1 & H1 & H) | (e & H1 & ->)];
    apply assert_inv in H1 as [Hh1 ?]; [|done].
  apply bind_inv in H as [(df & s2 & H2 & H) | (e & H2 & ->)];
    apply lift_inv in H2 as [-> Hdf]; [|by rewrite Hh1].
  unfold BigInt.pow in Hdf. destruct (d <? 0) eqn:Hd; [done|].
  apply Z.ltb_ge in Hd. injection Hdf as <-.
  replace (if p <? d then d else p) with (Z.max p d) in H
    by (destruct (p <? d) eqn:E; [apply Z.ltb_lt in E | apply Z.ltb_ge in E]; lia).
  apply bind_inv in H as [(f & s3 & H3 & H) | (e & H3 & ->)];
    apply lift_inv in H3 as [-> Hf]; [|by rewrite Hh1].
  rewrite pow_ok in Hf by lia. injection Hf as <-.
  destruct b.
  - apply bind_inv in H as [(v & s4 & H4 & H) | (e & H4 & ->)];
      apply lift_inv in H4 as [-> Hv]; [|by rewrite Hh1].
    inversion H; subst. split; [done|]. intros o [= <-]. by simpl.
  - apply bind_inv in H as [(v & s4 & H4 & H) | (e & H4 & ->)];
      apply lift_inv in H4 as [-> Hv]; [|by rewrite Hh1].
    apply bind_inv in H as [(q & s5 & H5 & H) | (e & H5 & ->)];
      apply lift_inv in H5 as [-> Hq]; [|by rewrite Hh1].
    inversion H; subst. split; [done|]. intros o [= <-]. by simpl.
Qed.

Lemma init_invariant raw d p b s o s' :
  init raw d p b s = (Ok o, s') -> invariant o.
Proof.
  intros H. apply init_inv in H as [_ H].
  destruct (H o eq_refl) as (Hd & Hdec & Hdf & Hp & Hf).
  unfold invariant. rewrite Hdec, Hdf, Hp, Hf. lia.
Qed.

End Construction.

(** ** Operands *)
Section Operands.

Variable settings : Settings.
Implicit Types (h : list N) (s : state) (o A I : N).

Lemma constructor_inv v d p b s out s' :
  constructor settings v d p b s = (out, s') ->
  heap s' = heap s /\
  forall o, out = Ok o -> Forall invariant (heap s) -> invariant o.
Proof.
  unfold constructor.
  destruct (default (Num 0) v) as [str|n|n|r]; intros H.
  - destruct (JsString.includes str "."); (split;
      [ by apply init_inv in H as [? _]
      | intros o -> _; by apply init_invariant in H ]).
  - split; [ by apply init_inv in H as [? _]
           | intros o -> _; by apply init_invariant in H ].
  - split; [ by apply init_inv in H as [? _]
           | intros o -> _; by apply init_invariant in H ].
  - apply load_inv in H as [-> [[_ ->] | (o' & Hr & ->)]]; (split; [done|]).
    + discriminate.
    + intros o [= <-] Hall. by eapply Forall_lookup_1.
Qed.

Lemma new_inv v d p b s out s' :
  new settings v d p b s = (out, s') -> allocated s out s'.
Proof.
  unfold new. intros H.
  apply bind_inv in H as [(o & s1 & H1 & H) | (e & H1 & ->)];
    apply constructor_inv in H1 as [Hh Hinv].
  - right. exists o. unfold alloc in H. inversion H; subst.
    rewrite Hh. simpl. split_and!; [done..|]. by apply Hinv.
  - left. by exists e.
Qed.

Lemma clone_spec s r :
  clone settings r s =
    match heap s !! r with
    | Some o => (Ok (length (heap s)), set_heap (heap s ++ [o]) s)
    | None => (Throw TypeError, s)
    end.
Proof.
  unfold clone, new, constructor, bind, load, alloc. simpl.
  by destruct (heap s !! r).
Qed.

Lemma clone_ok s r o :
  heap s !! r = Some o ->
  clone settings r s = (Ok (length (heap s)), set_heap (heap s ++ [o]) s).
Proof. intros H. by rewrite clone_spec, H. Qed.

Lemma nfy_inv this arg s out s' :
  nfy settings this arg s = (out, s') -> allocated s out s'.
Proof.
  unfold nfy. destruct arg as [str|n|n|r]; intros H;
    try by apply new_inv in H.
  all: apply bind_inv in H as [(own & s1 & H1 & H) | (e & H1 & ->)];
    apply get_inv in H1 as [-> _];
    [ by apply new_inv in H | left; by exists e ].
Qed.

(** The rest of [rebase] once [nfy] has put the copy [I] above the
    receiver [A], itself the newest object before. *)
Lemma rebase_run h err err' A I arg :
  nfy settings (length h) arg (mkState (h ++ [A]) err) =
    (Ok (S (length h)), mkState (h ++ [A; I]) err') ->
  rebase settings (length h) arg (mkState (h ++ [A]) err) =
    (Ok (S (length h)),
     mkState (h ++ [fst (rebased A I); snd (rebased A I)]) err').
Proof.
  intros Hnfy. unfold rebase.
  rewrite (bind_ok _ _ _ _ _ Hnfy).
  js_run. unfold rebased, raised.
  destruct (precision I <? precision A) eqn:Hlt.
  - apply Z.ltb_lt in Hlt. js_run. reflexivity.
  - destruct (precision I >? precision A) eqn:Hgt.
    + apply Z.gtb_lt in Hgt. js_run. reflexivity.
    + js_run. reflexivity.
Qed.

Lemma rebase_obj h err A b I :
  (h ++ [A]) !! b = Some I ->
  rebase settings (length h) (Obj b) (mkState (h ++ [A]) err) =
    (Ok (S (length h)),
     mkState (h ++ [fst (rebased A I); snd (rebased A I)]) err).
Proof.
  intros Hb. apply rebase_run. unfold nfy.
  rewrite (clone_ok (mkState (h ++ [A]) err) b I Hb). by js_tidy.
Qed.

Lemma rebase_inv h err A arg out s' :
  rebase settings (length h) arg (mkState (h ++ [A]) err) = (out, s') ->
  (exists e, out = Throw e /\ heap s' = h ++ [A]) \/
  (exists I err',
      out = Ok (S (length h)) /\
      s' = mkState (h ++ [fst (rebased A I); snd (rebased A I)]) err' /\
      (Forall invariant (h ++ [A]) -> invariant I)).
Proof.
  intros H.
  destruct (nfy settings (length h) arg (mkState (h ++ [A]) err))
    as [out1 [h1 err1]] eqn:Hnfy.
  pose proof (nfy_inv _ _ _ _ _ Hnfy) as [(e & -> & Hh) | (I & -> & Hh & Hinv)];
    simpl in Hh; subst h1.
  - left. exists e. unfold rebase in H.
    rewrite (bind_throw _ _ _ _ _ Hnfy) in H. by inversion H.
  - right. exists I, err1. revert Hnfy. js_tidy. intros Hnfy.
    rewrite (rebase_run _ _ _ _ _ _ Hnfy) in H. by inversion H.
Qed.

Lemma rebased_invariant A I :
  invariant A -> invariant I ->
  invariant (fst (rebased A I)) /\ invariant (snd (rebased A I)).
Proof.
  unfold rebased, raised, invariant.
  intros (HfA & HdA & HA) (HfI & HdI & HI).
  destruct (precision I <? precision A) eqn:Hlt;
    [apply Z.ltb_lt in Hlt|destruct (precision I >? precision A) eqn:Hgt;
      [apply Z.gtb_lt in Hgt|]]; simpl; repeat split; auto; lia.
Qed.

End Operands.

(** ** Arithmetic and comparison on a receiver and an operand *)
Section Binary.

Variable settings : Settings.
Implicit Types (h : list N) (s : state) (o A I : N).

(** Every binary method starts with [this.clone()] and a [rebase] of the
    copy; [k] is what it does next. *)
Lemma operands_inv {B} (k : ref -> ref -> Js B) this arg h err out s' :
  (copy <- clone settings this ;;
   rebased <- rebase settings copy arg ;;
   k copy rebased) (mkState h err) = (out, s') ->
  (exists e, out = Throw e /\ h !! this = None /\ heap s' = h) \/
  (exists e A, out = Throw e /\ h !! this = Some A /\ heap s' = h ++ [A]) \/
  (exists A I err',
      h !! this = Some A /\
      (Forall invariant (h ++ [A]) -> invariant I) /\
      k (length h) (S (length h))
        (mkState (h ++ [fst (rebased A I); snd (rebased A I)]) err')
      = (out, s')).
Proof.
  intros H.
  apply bind_inv in H as [(copy & s1 & H1 & H) | (e & H1 & ->)];
    rewrite clone_spec in H1; simpl in H1;
    destruct (h !! this) as [A|] eqn:Hthis; inversion H1; subst; clear H1.
  - apply bind_inv in H as [(r & s2 & H2 & H) | (e & H2 & ->)];
      apply rebase_inv in H2
        as [(e' & He & Hh) | (I & err' & Hr & -> & Hinv)].
    + discriminate.
    + injection Hr as ->. right. right. by exists A, I, err'.
    + right. left. by exists e, A.
    + discriminate.
  - left. by eexists.
Qed.

Lemma operands_obj {B} (k : ref -> ref -> Js B) a b h err A I :
  h !! a = Some A -> h !! b = Some I ->
  (copy <- clone settings a ;;
   rebased <- rebase settings copy (Obj b) ;;
   k copy rebased) (mkState h err) =
  k (length h) (S (length h))
    (mkState (h ++ [fst (rebased A I); snd (rebased A I)]) err).
Proof.
  intros Ha Hb.
  rewrite (bind_ok _ _ _ _ _ (clone_ok settings (mkState h err) a A Ha)).
  js_tidy.
  by rewrite (bind_ok _ _ _ _ _
                (rebase_obj settings h err A b I (lookup_app_l_Some _ _ _ _ Hb))).
Qed.

Lemma plus_obj a b h err A B :
  h !! a = Some A -> h !! b = Some B ->
  let A' := fst (rebased A B) in
  let B' := snd (rebased A B) in
  plus settings a (Obj b) (mkState h err) =
    (Ok (length h),
     mkState (h ++ [set_value (value A' + value B') A'; B']) err).
Proof.
  intros Ha Hb A' B'. unfold plus.
  etransitivity; [by apply operands_obj|].
  js_run. reflexivity.
Qed.

Lemma minus_obj a b h err A B :
  h !! a = Some A -> h !! b = Some B ->
  let A' := fst (rebased A B) in
  let B' := snd (rebased A B) in
  minus settings a (Obj b) (mkState h err) =
    (Ok (length h),
     mkState (h ++ [set_value (value A' - value B') A'; B']) err).
Proof.
  intros Ha Hb A' B'. unfold minus.
  etransitivity; [by apply operands_obj|].
  js_run. reflexivity.
Qed.

Lemma compare_obj test a b h err A B :
  h !! a = Some A -> h !! b = Some B ->
  let A' := fst (rebased A B) in
  let B' := snd (rebased A B) in
  compare settings test a (Obj b) (mkState h err) =
    (Ok (test (value A') (value B')), mkState (h ++ [A'; B']) err).
Proof.
  intros Ha Hb A' B'. unfold compare.
  etransitivity; [by apply operands_obj|].
  js_run. reflexivity.
Qed.

Lemma mul_obj a b h err A B :
  h !! a = Some A -> h !! b = Some B ->
  let A' := fst (rebased A B) in
  let B' := snd (rebased A B) in
  mul settings a (Obj b) (mkState h err) =
    finish h err A' B' (BigInt.div (value A' * value B') (factor A)).
Proof.
  intros Ha Hb A' B'. unfold mul.
  etransitivity; [by apply operands_obj|].
  assert (Hthis : (h ++ [fst (rebased A B); snd (rebased A B)]) !! a = Some A)
    by by apply lookup_app_l_Some.
  fold A' B' in Hthis |- *.
  destruct (BigInt.div (value A' * value B') (factor A)) as [q|e] eqn:Hq.
  - js_run. reflexivity.
  - js_run. by erewrite bind_throw by (apply lift_throw; eassumption).
Qed.

Lemma div_obj a b h err A B :
  h !! a = Some A -> h !! b = Some B ->
  let A' := fst (rebased A B) in
  let B' := snd (rebased A B) in
  div settings a (Obj b) (mkState h err) =
    finish h err A' B' (BigInt.div (factor A * value A') (value B')).
Proof.
  intros Ha Hb A' B'. unfold div.
  etransitivity; [by apply operands_obj|].
  assert (Hthis : (h ++ [fst (rebased A B); snd (rebased A B)]) !! a = Some A)
    by by apply lookup_app_l_Some.
  fold A' B' in Hthis |- *.
  destruct (BigInt.div (factor A * value A') (value B')) as [q|e] eqn:Hq.
  - js_run. reflexivity.
  - js_run. by erewrite bind_throw by (apply lift_throw; eassumption).
Qed.

End Binary.

(** ** Methods that only read *)
Section Readers.

Variable settings : Settings.

Lemma readonly_bind {A B} (m : Js A) (k : A -> Js B) :
  readonly m -> (forall a, readonly (k a)) -> readonly (bind m k).
Proof.
  intros Hm Hk s out s' H.
  apply bind_inv in H as [(a & s1 & H1 & H) | (e & H1 & ->)].
  - apply Hm in H1 as ->. by apply Hk in H.
  - by apply Hm in H1.
Qed.

Lemma readonly_ret {A} (a : A) : readonly (ret a).
Proof. intros s out s' H. by inversion H. Qed.

Lemma readonly_lift {A} (x : outcome A) : readonly (lift x).
Proof. intros s out s' H. by inversion H. Qed.

Lemma readonly_load r : readonly (load r).
Proof. intros s out s' H. by apply load_inv in H as [-> _]. Qed.

Lemma readonly_get {A} (field : N -> A) r : readonly (get field r).
Proof. intros s out s' H. by apply get_inv in H as [-> _]. Qed.

Create HintDb readers.
Hint Resolve readonly_ret readonly_lift readonly_load readonly_get : readers.

Ltac readers :=
  repeat first
    [ solve [ auto with readers ]
    | apply readonly_bind; [| intros ? ]
    | match goal with |- readonly (match ?x with _ => _ end) => destruct x end ].

Lemma readonly_rounder this v f : readonly (rounder settings this v f).
Proof. unfold rounder. readers. Qed.

Hint Resolve readonly_rounder : readers.

Lemma readonly_valueOf this : readonly (valueOf settings this).
Proof. unfold valueOf. readers. Qed.

Lemma readonly_toPrecise this : readonly (toPrecise this).
Proof. unfold toPrecise. readers. Qed.

Lemma readonly_toDecimal this places : readonly (toDecimal settings this places).
Proof. unfold toDecimal. readers. Qed.

Hint Resolve readonly_toDecimal : readers.

Lemma readonly_toString this places : readonly (toString settings this places).
Proof. unfold toString. readers. Qed.

End Readers.

(** ** Methods that allocate *)
Section Writers.

Variable settings : Settings.
Implicit Types (h : list N) (s : state) (o A I : N).

Lemma grows_refl s : grows s s.
Proof. exists []. by rewrite app_nil_r. Qed.

Lemma grows_same s s' : heap s' = heap s -> grows s s'.
Proof. intros H. exists []. by rewrite app_nil_r. Qed.

Lemma grows_copy h err this A s' :
  h !! this = Some A -> heap s' = h ++ [A] -> grows (mkState h err) s'.
Proof.
  intros Ha Hh. exists [A]. split; [done|].
  intros Hall. constructor; [|done]. by eapply Forall_lookup_1.
Qed.

Lemma grows_pair h err this A I X s' :
  h !! this = Some A ->
  (Forall invariant (h ++ [A]) -> invariant I) ->
  (invariant (fst (rebased A I)) -> invariant X) ->
  heap s' = h ++ [X; snd (rebased A I)] ->
  grows (mkState h err) s'.
Proof.
  intros Ha HI HX Hh. exists [X; snd (rebased A I)]. split; [done|].
  simpl. intros Hall.
  assert (invariant A) as HA by by eapply Forall_lookup_1.
  assert (invariant I) as HI'.
  { apply HI, Forall_app. split; [done | by constructor]. }
  destruct (rebased_invariant A I HA HI') as [H1 H2].
  constructor; [by apply HX | by constructor].
Qed.

Lemma invariant_set_value v o : invariant o -> invariant (set_value v o).
Proof. by unfold invariant. Qed.

Lemma fresh_top h err o rest out s' :
  out = Ok (length h) -> heap s' = h ++ o :: rest ->
  fresh (mkState h err) out s'.
Proof.
  intros -> Hh r [= <-]. simpl. rewrite Hh. split.
  - by apply lookup_ge_None.
  - rewrite at_top. by eexists.
Qed.

Lemma fresh_throw s e s' : fresh s (Throw e) s'.
Proof. by intros r. Qed.

Lemma allocated_frame s out s' :
  allocated s out s' -> grows s s' /\ fresh s out s'.
Proof.
  destruct s as [h err].
  intros [(e & -> & Hh) | (o & -> & Hh & Hinv)]; simpl in *.
  - split; [by apply grows_same | apply fresh_throw].
  - split; [| by eapply fresh_top].
    exists [o]. split; [done|]. intros Hall. constructor; auto.
Qed.

Lemma new_frame v d p b s out s' :
  new settings v d p b s = (out, s') -> grows s s' /\ fresh s out s'.
Proof. intros H. by apply new_inv, allocated_frame in H. Qed.

(** The three ways a binary method can go, after [operands_inv]. *)
Ltac binary_frame H :=
  apply operands_inv in H
    as [(e & -> & Hn & Hh) | [(e & A & -> & Ha & Hh) | (A & I & err' & Ha & Hinv & H)]];
  [ split; [by apply grows_same | try apply fresh_throw]
  | split; [by eapply grows_copy | try apply fresh_throw]
  | ].

Lemma plus_frame this arg s out s' :
  plus settings this arg s = (out, s') -> grows s s' /\ fresh s out s'.
Proof.
  destruct s as [h err]. unfold plus. intros H. binary_frame H.
  revert H. js_run. intros [= <- <-]. split.
  - eapply (grows_pair _ _ _ _ _ _ _ Ha Hinv); [| reflexivity].
    apply invariant_set_value.
  - by eapply fresh_top.
Qed.

Lemma minus_frame this arg s out s' :
  minus settings this arg s = (out, s') -> grows s s' /\ fresh s out s'.
Proof.
  destruct s as [h err]. unfold minus. intros H. binary_frame H.
  revert H. js_run. intros [= <- <-]. split.
  - eapply (grows_pair _ _ _ _ _ _ _ Ha Hinv); [| reflexivity].
    apply invariant_set_value.
  - by eapply fresh_top.
Qed.

Lemma compare_frame test this arg s out s' :
  compare settings test this arg s = (out, s') -> grows s s'.
Proof.
  destruct s as [h err]. unfold compare. intros H.
  apply operands_inv in H
    as [(e & -> & Hn & Hh) | [(e & A & -> & Ha & Hh) | (A & I & err' & Ha & Hinv & H)]].
  - by apply grows_same.
  - by eapply grows_copy.
  - revert H. js_run. intros [= <- <-].
    by eapply (grows_pair _ _ _ _ _ _ _ Ha Hinv); [| reflexivity].
Qed.

Lemma finish_frame h err this A I q out s' :
  h !! this = Some A ->
  (Forall invariant (h ++ [A]) -> invariant I) ->
  finish h err (fst (rebased A I)) (snd (rebased A I)) q = (out, s') ->
  grows (mkState h err) s' /\ fresh (mkState h err) out s'.
Proof.
  intros Ha Hinv. unfold finish. destruct q as [v|e]; intros [= <- <-].
  - split; [| by eapply fresh_top].
    eapply (grows_pair _ _ _ _ _ _ _ Ha Hinv); [| reflexivity].
    apply invariant_set_value.
  - split; [| apply fresh_throw].
    by eapply (grows_pair _ _ _ _ _ _ _ Ha Hinv); [| reflexivity].
Qed.

Lemma mul_frame this arg s out s' :
  mul settings this arg s = (out, s') -> grows s s' /\ fresh s out s'.
Proof.
  destruct s as [h err]. unfold mul. intros H. binary_frame H.
  assert (Hthis : (h ++ [fst (rebased A I); snd (rebased A I)]) !! this = Some A)
    by by apply lookup_app_l_Some.
  eapply (finish_frame h err' this A I
            (BigInt.div (value (fst (rebased A I)) * value (snd (rebased A I)))
                        (factor A))) in Hinv as [Hg Hf]; [| done |].
  - split; [| exact Hf]. destruct Hg as (added & Hg & Hall). by exists added.
  - rewrite <- H. unfold finish.
    destruct (BigInt.div _ (factor A)) as [q|e] eqn:Hq.
    + js_run. reflexivity.
    + js_run. by erewrite bind_throw by (apply lift_throw; eassumption).
Qed.

Lemma div_frame this arg s out s' :
  div settings this arg s = (out, s') -> grows s s' /\ fresh s out s'.
Proof.
  destruct s as [h err]. unfold div. intros H. binary_frame H.
  assert (Hthis : (h ++ [fst (rebased A I); snd (rebased A I)]) !! this = Some A)
    by by apply lookup_app_l_Some.
  eapply (finish_frame h err' this A I
            (BigInt.div (factor A * value (fst (rebased A I)))
                        (value (snd (rebased A I))))) in Hinv as [Hg Hf]; [| done |].
  - split; [| exact Hf]. destruct Hg as (added & Hg & Hall). by exists added.
  - rewrite <- H. unfold finish.
    destruct (BigInt.div _ (value (snd (rebased A I)))) as [q|e] eqn:Hq.
    + js_run. reflexivity.
    + js_run. by erewrite bind_throw by (apply lift_throw; eassumption).
Qed.

End Writers.

(** ** Square root *)
Section Sqrt.

Variable settings : Settings.
Implicit Types (h : list N) (s : state) (o A I : N).

(** From a radicand of at least 2 and a positive guess, the Newton loop
    never divides by zero: it ends, with a result. *)
Lemma sqrt_loop_ok x z y :
  2 <= x -> 1 <= z -> exists r, sqrt_loop x z y = Ok r.
Proof.
  funelim (sqrt_loop x z y); intros Hx Hz.
  - by eexists.
  - match goal with E : BigInt.div _ _ = Throw _ |- _ =>
      pose proof E as E'; rewrite div_ok in E' by lia; discriminate E' end.
  - apply H; [done|].
    pose proof Hq as Eq. pose proof Hz' as Ez. clear - Eq Ez Hx Hz.
    rewrite div_ok in Eq by lia. injection Eq as <-.
    rewrite div_ok in Ez by lia. injection Ez as <-.
    assert (0 <= Z.quot x z) by (apply Z.quot_pos; lia).
    destruct (Z.eq_dec z 1) as [->|Hne].
    + rewrite Z.quot_1_r in *. lia.
    + generalize dependent (Z.quot x z). intros. lia.
  - match goal with E : BigInt.div _ _ = Throw _ |- _ =>
      pose proof E as E'; rewrite div_ok in E' by lia; discriminate E' end.
Qed.

Lemma sqrt_spec this h err A :
  h !! this = Some A ->
  sqrt settings this (mkState h err) =
    let x := value A * factor A in
    if x <? 0 then
      (Throw (Thrown "square root of negative numbers is not supported"),
       mkState (h ++ [A]) err)
    else if x <? 2 then (Ok (length h), mkState (h ++ [A]) err)
    else match sqrt_loop x (Z.quot x 2 + 1) x with
         | Ok y => (Ok (length h), mkState (h ++ [set_value y A]) err)
         | Throw e => (Throw e, mkState (h ++ [A]) err)
         end.
Proof.
  intros Ha. unfold sqrt.
  rewrite (bind_ok _ _ _ _ _ (clone_ok settings (mkState h err) this A Ha)).
  js_tidy. do 2 js_step. cbv zeta.
  destruct (value A * factor A <? 0); [done|].
  destruct (value A * factor A <? 2); [done|].
  js_step.
  destruct (sqrt_loop _ _ _) as [y|e] eqn:Hy.
  - js_run. reflexivity.
  - by erewrite bind_throw by (by apply lift_throw).
Qed.

Lemma sqrt_frame this s out s' :
  sqrt settings this s = (out, s') -> grows s s' /\ fresh s out s'.
Proof.
  destruct s as [h err]. destruct (h !! this) as [A|] eqn:Ha.
  - rewrite (sqrt_spec _ _ _ _ Ha). cbv zeta.
    destruct (_ <? 0); [|destruct (_ <? 2); [|destruct (sqrt_loop _ _ _)]];
      intros [= <- <-].
    + split; [by eapply grows_copy | apply fresh_throw].
    + split; [by eapply grows_copy | by eapply fresh_top].
    + split; [| by eapply fresh_top].
      exists [set_value a A]. split; [done|]. intros Hall.
      constructor; [|done].
      apply invariant_set_value. by eapply Forall_lookup_1.
    + split; [by eapply grows_copy | apply fresh_throw].
  - unfold sqrt. intros H.
    apply bind_inv in H as [(r & s1 & H1 & H) | (e & H1 & ->)];
      rewrite clone_spec in H1; simpl in H1; rewrite Ha in H1;
      inversion H1; subst.
    split; [apply grows_refl | apply fresh_throw].
Qed.

End Sqrt.

(** ** Every call *)
Section Calls.

Implicit Types (h : list N) (s : state) (o A B : N).

Lemma perform_frame settings c s out s' :
  perform settings c s = (out, s') ->
  grows s s' /\
  forall r, out = Ok (Instance r) ->
    heap s !! r = None /\ is_Some (heap s' !! r).
Proof.
  assert (Hwrite : forall (m : Js ref),
    (forall out s', m s = (out, s') -> grows s s' /\ fresh s out s') ->
    answering Instance m s = (out, s') ->
    grows s s' /\
    forall r, out = Ok (Instance r) -> heap s !! r = None /\ is_Some (heap s' !! r)).
  { intros m Hm H. unfold answering in H.
    apply bind_inv in H as [(a & s1 & H1 & H) | (e & H1 & ->)].
    - inversion H; subst. apply Hm in H1 as [Hg Hf].
      split; [done|]. intros r [= <-]. by apply Hf.
    - apply Hm in H1 as [Hg _]. split; [done|]. by intros r. }
  assert (Hread : forall {T} (wrap : T -> answer) (m : Js T),
    (forall t r, wrap t <> Instance r) ->
    (forall out s', m s = (out, s') -> grows s s') ->
    answering wrap m s = (out, s') ->
    grows s s' /\
    forall r, out = Ok (Instance r) -> heap s !! r = None /\ is_Some (heap s' !! r)).
  { intros T wrap m Hw Hm H. unfold answering in H.
    apply bind_inv in H as [(a & s1 & H1 & H) | (e & H1 & ->)].
    - inversion H; subst. split; [by eapply Hm|].
      intros r [= Hr]. by apply Hw in Hr.
    - split; [by eapply Hm|]. by intros r. }
  assert (Hpure : forall {T} (m : Js T),
    readonly m -> forall out s', m s = (out, s') -> grows s s').
  { intros T m Hm out' s'' H. apply Hm in H as ->. apply grows_refl. }
  destruct c; simpl.
  - apply Hwrite. intros ??. apply new_frame.
  - apply Hwrite. intros ??. apply new_frame.
  - apply Hread; [done|]. apply Hpure, readonly_valueOf.
  - apply Hread; [done|]. apply Hpure, readonly_toPrecise.
  - apply Hread; [done|]. apply Hpure, readonly_toDecimal.
  - apply Hread; [done|]. apply Hpure, readonly_toString.
  - apply Hwrite. intros ??. apply plus_frame.
  - apply Hwrite. intros ??. apply minus_frame.
  - apply Hwrite. intros ??. apply mul_frame.
  - apply Hwrite. intros ??. apply mul_frame.
  - apply Hwrite. intros ??. apply div_frame.
  - apply Hwrite. intros ??. apply mul_frame.
  - apply Hwrite. intros ??. apply sqrt_frame.
  - apply Hread; [done|]. intros ??. apply compare_frame.
  - apply Hread; [done|]. intros ??. apply compare_frame.
  - apply Hread; [done|]. intros ??. apply compare_frame.
  - apply Hread; [done|]. intros ??. apply compare_frame.
  - apply Hread; [done|]. intros ??. apply compare_frame.
Qed.

End Calls.

(** ** Values after [rebase] *)
Section Rebased.

Implicit Types (A B : N).

(** Both operands end at the larger precision, padded with zeros. *)
Lemma rebased_max A B :
  let P := Z.max (precision A) (precision B) in
  value (fst (rebased A B)) = value A * 10 ^ (P - precision A) /\
  precision (fst (rebased A B)) = P /\
  value (snd (rebased A B)) = value B * 10 ^ (P - precision B) /\
  precision (snd (rebased A B)) = P.
Proof.
  unfold rebased, raised.
  destruct (precision B <? precision A) eqn:Hlt;
    [apply Z.ltb_lt in Hlt
    |apply Z.ltb_ge in Hlt; destruct (precision B >? precision A) eqn:Hgt;
      [apply Z.gtb_lt in Hgt | rewrite Z.gtb_ltb in Hgt; apply Z.ltb_ge in Hgt]];
    simpl.
  - rewrite Z.max_l by lia. rewrite Z.sub_diag, Z.mul_1_r. done.
  - rewrite Z.max_r by lia. rewrite Z.sub_diag, Z.mul_1_r. done.
  - rewrite Z.max_l by lia. rewrite Z.sub_diag.
    replace (precision A - precision B) with 0 by lia.
    rewrite !Z.mul_1_r. split_and!; [done..|lia].
Qed.

Lemma factor_pos A : invariant A -> 0 < factor A.
Proof. intros (-> & _ & H). apply Z.pow_pos_nonneg; lia. Qed.

End Rebased.

(** ** Exact decimal values *)
Section Exact.

Variable settings : Settings.
Implicit Types (h : list N) (A B : N).

Lemma inject_pow_nonzero k : 0 <= k -> ~ inject_Z (10 ^ k) == 0.
Proof.
  intros Hk H. unfold Qeq in H. simpl in H.
  pose proof (Z.pow_pos_nonneg 10 k ltac:(lia) Hk). lia.
Qed.

(** Padding with zeros keeps the decimal value. *)
Lemma padded_exact v p e :
  0 <= p -> 0 <= e ->
  (inject_Z (v * 10 ^ e) / inject_Z (10 ^ (p + e)) ==
   inject_Z v / inject_Z (10 ^ p))%Q.
Proof.
  intros Hp He. rewrite Z.pow_add_r by lia. rewrite !inject_Z_mult.
  pose proof (inject_pow_nonzero p Hp). pose proof (inject_pow_nonzero e He).
  by field.
Qed.

(** [rebase] is lossless. *)
Lemma rebased_exact A B :
  invariant A -> invariant B ->
  exact (fst (rebased A B)) == exact A /\
  exact (snd (rebased A B)) == exact B.
Proof.
  intros (HfA & _ & HA) (HfB & _ & HB). unfold rebased, raised, exact.
  destruct (precision B <? precision A) eqn:Hlt;
    [apply Z.ltb_lt in Hlt
    |destruct (precision B >? precision A) eqn:Hgt; [apply Z.gtb_lt in Hgt|]];
    simpl; (split; [|]); try reflexivity.
  - rewrite HfA, HfB.
    replace (precision A) with (precision B + (precision A - precision B)) at 2 by lia.
    apply padded_exact; lia.
  - rewrite HfA, HfB.
    replace (precision B) with (precision A + (precision B - precision A)) at 2 by lia.
    apply padded_exact; lia.
Qed.

Lemma rebased_same_factor A B :
  invariant A -> invariant B ->
  factor (snd (rebased A B)) = factor (fst (rebased A B)).
Proof.
  intros HA HB.
  destruct (rebased_invariant A B HA HB) as [(-> & _) (-> & _)].
  by destruct (rebased_max A B) as (_ & -> & _ & ->).
Qed.

(** The sum and the difference are exact: they depend on the decimal
    values of the operands only, whichever has the larger precision. *)
Lemma plus_exact a b h err A B :
  h !! a = Some A -> h !! b = Some B ->
  invariant A -> invariant B ->
  exists R rest,
    plus settings a (Obj b) (mkState h err)
      = (Ok (length h), mkState (h ++ R :: rest) err) /\
    exact R == exact A + exact B.
Proof.
  intros Ha Hb HA HB. rewrite (plus_obj settings a b h err A B Ha Hb). cbv zeta.
  eexists _, _. split; [reflexivity|].
  destruct (rebased_exact A B HA HB) as [<- <-].
  pose proof (rebased_same_factor A B HA HB) as Hf.
  destruct (rebased_invariant A B HA HB) as [H1 _].
  pose proof (factor_pos _ H1).
  unfold exact. simpl. rewrite Hf, inject_Z_plus.
  assert (~ inject_Z (factor (fst (rebased A B))) == 0).
  { intros E. unfold Qeq in E. simpl in E. lia. }
  by field.
Qed.

Lemma minus_exact a b h err A B :
  h !! a = Some A -> h !! b = Some B ->
  invariant A -> invariant B ->
  exists R rest,
    minus settings a (Obj b) (mkState h err)
      = (Ok (length h), mkState (h ++ R :: rest) err) /\
    exact R == exact A - exact B.
Proof.
  intros Ha Hb HA HB. rewrite (minus_obj settings a b h err A B Ha Hb). cbv zeta.
  eexists _, _. split; [reflexivity|].
  destruct (rebased_exact A B HA HB) as [<- <-].
  pose proof (rebased_same_factor A B HA HB) as Hf.
  destruct (rebased_invariant A B HA HB) as [H1 _].
  pose proof (factor_pos _ H1).
  unfold exact. simpl. rewrite Hf.
  unfold Z.sub. rewrite inject_Z_plus, inject_Z_opp.
  assert (~ inject_Z (factor (fst (rebased A B))) == 0).
  { intros E. unfold Qeq in E. simpl in E. lia. }
  by field.
Qed.

End Exact.

(** ** Conversions *)
Section Conversions.

Variable settings : Settings.
Implicit Types (h : list N) (s : state) (A : N).

Lemma rounders_ok custom mode v f :
  f <> 0 -> exists c, rounders custom mode v f = Ok c.
Proof.
  intros Hf. destruct mode; simpl; rewrite ?rem_ok by done; by eexists.
Qed.

Lemma rounder_given this v f s :
  rounder settings this (Some v) (Some f) s = (carry_of settings v f, s).
Proof. reflexivity. Qed.

Lemma rounder_own this s A :
  heap s !! this = Some A ->
  rounder settings this None None s = (carry_of settings (value A) (factor A), s).
Proof. intros Ha. unfold rounder. js_run. reflexivity. Qed.

Lemma valueOf_spec this s A :
  heap s !! this = Some A ->
  factor A <> 0 ->
  valueOf settings this s =
    (match carry_of settings (value A) (factor A) with
     | Ok c => Ok (Z.quot (value A) (factor A) + c)
     | Throw e => Throw e
     end, s).
Proof.
  intros Ha Hf. unfold valueOf. js_run.
  unfold bind. rewrite (rounder_own _ _ _ Ha).
  by destruct (carry_of _ _ _).
Qed.

Lemma toDecimal_spec this places s A :
  heap s !! this = Some A ->
  toDecimal settings this places s =
    let n := default (decimals A) places in
    if n <? precision A then
      let f := 10 ^ (precision A - n) in
      (match carry_of settings (value A) f with
       | Ok c => Ok (Z.quot (value A) f + c)
       | Throw e => Throw e
       end, s)
    else (Ok (value A * 10 ^ (n - precision A)), s).
Proof.
  intros Ha. unfold toDecimal.
  assert ((match places with Some p => ret p | None => get decimals this end) s
          = (Ok (default (decimals A) places), s)) as Hn.
  { destruct places; [done|]. simpl. by apply (get_ok decimals). }
  rewrite (bind_ok _ _ _ _ _ Hn). js_step. cbv zeta.
  destruct (default (decimals A) places <? precision A) eqn:Hlt.
  - apply Z.ltb_lt in Hlt.
    assert (10 ^ (precision A - default (decimals A) places) <> 0)
      by (apply Z.pow_nonzero; lia).
    js_run. unfold bind. rewrite rounder_given.
    by destruct (carry_of _ _ _).
  - apply Z.ltb_ge in Hlt. js_run. reflexivity.
Qed.

Lemma toDecimal_returns this places s A :
  heap s !! this = Some A -> returns (toDecimal settings this places) s.
Proof.
  intros Ha. unfold returns. rewrite (toDecimal_spec _ _ _ _ Ha). cbv zeta.
  destruct (_ <? _) eqn:Hlt; [|by eexists _, _].
  apply Z.ltb_lt in Hlt.
  destruct (rounders_ok (ROUNDING_CUSTOM_FUNCTION settings)
              (ROUNDING_MODE settings) (value A)
              (10 ^ (precision A - default (decimals A) places))) as [c Hc].
  { apply Z.pow_nonzero; lia. }
  unfold carry_of. rewrite Hc. by eexists _, _.
Qed.

Lemma toString_returns this places s A :
  heap s !! this = Some A -> returns (toString settings this places) s.
Proof.
  intros Ha. unfold returns, toString.
  assert ((match places with Some p => ret p | None => get decimals this end) s
          = (Ok (default (decimals A) places), s)) as Hn.
  { destruct places; [done|]. simpl. by apply (get_ok decimals). }
  rewrite (bind_ok _ _ _ _ _ Hn).
  destruct (toDecimal_returns this (Some (default (decimals A) places)) s A Ha)
    as (d & s' & Hd).
  rewrite (bind_ok _ _ _ _ _ Hd). by eexists _, _.
Qed.

Lemma valueOf_returns this s A :
  heap s !! this = Some A -> invariant A -> returns (valueOf settings this) s.
Proof.
  intros Ha HA. pose proof (factor_pos A HA).
  unfold returns. rewrite (valueOf_spec _ _ _ Ha) by lia.
  destruct (rounders_ok (ROUNDING_CUSTOM_FUNCTION settings)
              (ROUNDING_MODE settings) (value A) (factor A)) as [c Hc]; [lia|].
  unfold carry_of. rewrite Hc. by eexists _, _.
Qed.

(** [valueOf] and [toDecimal(0)] agree on an instance that has decimals
    to drop, and on any instance when nothing is carried for a divisor
    of 1, as in every mode but CUSTOM. *)
Lemma valueOf_toDecimal_0 this s A :
  heap s !! this = Some A ->
  invariant A ->
  0 < precision A \/ carry_of settings (value A) 1 = Ok 0 ->
  valueOf settings this s = toDecimal settings this (Some 0) s.
Proof.
  intros Ha HA Hcase. pose proof (factor_pos A HA) as Hpos.
  destruct HA as (Hf & _ & Hp).
  rewrite (valueOf_spec _ _ _ Ha) by lia.
  rewrite (toDecimal_spec _ _ _ _ Ha). simpl default. cbv zeta.
  destruct (0 <? precision A) eqn:H0.
  - by rewrite Z.sub_0_r, <- Hf.
  - apply Z.ltb_ge in H0. destruct Hcase as [?|Hcarry]; [lia|].
    assert (precision A = 0) as Hp0 by lia.
    rewrite Hp0 in Hf. change (10 ^ 0) with 1 in Hf.
    rewrite Hf, Hcarry, Hp0, Z.quot_1_r. simpl. f_equal. f_equal. lia.
Qed.

Lemma builtin_carry_1 v :
  ROUNDING_MODE settings <> CUSTOM -> carry_of settings v 1 = Ok 0.
Proof.
  unfold carry_of, rounders. intros Hmode.
  destruct (ROUNDING_MODE settings); try done;
    rewrite rem_ok by lia; rewrite Z.rem_1_r; done.
Qed.

End Conversions.

(** ** Decimal strings

    A run of decimal digits is a [Decimal.uint]; [text] writes it down,
    [nzhead] drops its leading zeros and [unorm] leaves one zero when
    nothing else is left. *)
Section Digits.

Local Abbreviation text := NilEmpty.string_of_uint.

Implicit Types (u ip fp : uint).

Lemma text_length u : String.length (text u) = nb_digits u.
Proof. induction u; simpl; congruence. Qed.

Lemma app_cons (f : uint -> uint) u u' :
  (forall d, to_list (f d) = List.hd d0 (to_list (f Nil)) :: to_list d) ->
  Decimal.app (f u) u' = f (Decimal.app u u').
Proof.
  intros Hf. apply to_list_inj. by rewrite Hf, !app_spec, Hf.
Qed.

Lemma text_app u u' : text (Decimal.app u u') = (text u ++ text u')%string.
Proof.
  induction u; [by rewrite DecimalFacts.app_nil_l|..];
    (rewrite app_cons by done); simpl; by rewrite IHu.
Qed.

(** Reading digits back. *)
Lemma usize_nb_digits u : Z.of_N (Unsigned.usize u) = Z.of_nat (nb_digits u).
Proof. induction u; simpl; rewrite ?N2Z.inj_succ; lia. Qed.

Lemma of_uint_eqn u :
  Z.of_uint u =
    Z.of_N (Unsigned.hd u) * 10 ^ Z.of_nat (nb_digits (Unsigned.tl u))
    + Z.of_uint (Unsigned.tl u).
Proof.
  unfold Z.of_uint. rewrite !Unsigned.of_uint_alt.
  destruct u; simpl Unsigned.hd; simpl Unsigned.tl; [reflexivity|..];
    unfold Decimal.rev at 1; simpl Decimal.revapp;
    rewrite Unsigned.of_lu_revapp; simpl Unsigned.of_lu;
    rewrite N2Z.inj_add, N2Z.inj_mul, N2Z.inj_pow, usize_nb_digits;
    simpl Z.of_N; lia.
Qed.

Lemma digits_value_text u acc :
  BigInt.digits_value 10 acc (text u) =
    Some (acc * 10 ^ Z.of_nat (nb_digits u) + Z.of_uint u).
Proof.
  revert acc. induction u; intros acc;
    [simpl; f_equal; change (Z.of_uint Nil) with 0; lia|..];
    simpl BigInt.digits_value; rewrite IHu; f_equal;
    match goal with |- context [Z.of_uint (?c u)] =>
      rewrite (of_uint_eqn (c u)) end;
    simpl Unsigned.hd; simpl Unsigned.tl;
    simpl nb_digits; rewrite Nat2Z.inj_succ, Z.pow_succ_r by lia; simpl Z.of_N;
    match goal with |- context [Z.of_nat (nat_of_ascii ?c)] =>
      let v := eval vm_compute in (Z.of_nat (nat_of_ascii c)) in
      change (Z.of_nat (nat_of_ascii c)) with v end;
    ring.
Qed.

(** A string of digits has no white space, sign or radix prefix. *)
Lemma trim_start_text u : BigInt.trim_start (text u) = text u.
Proof. by destruct u. Qed.

Lemma trim_end_text u : BigInt.trim_end (text u) = text u.
Proof.
  induction u; [done|..]; simpl; rewrite IHu; by destruct u.
Qed.

Lemma of_string_text u : BigInt.of_string (text u) = Ok (Z.of_uint u).
Proof.
  unfold BigInt.of_string. rewrite trim_start_text, trim_end_text.
  pose proof (digits_value_text u 0) as Hv. rewrite Z.mul_0_l, Z.add_0_l in Hv.
  destruct u as [|u|u|u|u|u|u|u|u|u|u]; [done|..];
    simpl NilEmpty.string_of_uint in *; cbv beta iota;
    simpl Ascii.eqb; cbv iota;
    (replace (BigInt.radix_prefix _) with (@None (Z * string)) by by destruct u);
    unfold BigInt.literal; by rewrite Hv.
Qed.

(** Finding and removing the point. *)
Lemma indexOf_text ip rest :
  JsString.indexOf (text ip ++ String "." rest) "." = Z.of_nat (nb_digits ip).
Proof.
  induction ip; [done|..]; simpl; rewrite IHip;
    (destruct (Z.of_nat (nb_digits ip) <? 0) eqn:E; [apply Z.ltb_lt in E|]; lia).
Qed.

Lemma split_digits fp : JsString.split (text fp) "." = [text fp].
Proof. induction fp; [done|..]; simpl; by rewrite IHfp. Qed.

Lemma split_text ip fp :
  JsString.split (text ip ++ String "." (text fp)) "." = [text ip; text fp].
Proof.
  induction ip; simpl; [by rewrite split_digits|..]; by rewrite IHip.
Qed.

(** Padding the digits of a number back to the digits it was read from. *)
Lemma repeat_zero_text n u :
  (JsString.repeat "0" n ++ text u)%string = text (Nat.iter n D0 u).
Proof. induction n; [done|]. simpl. by rewrite IHn. Qed.

Lemma pad_unorm fp :
  fp <> Nil ->
  JsString.padStart (text (unorm fp)) (Z.of_nat (nb_digits fp)) "0" = text fp.
Proof.
  intros Hfp. unfold JsString.padStart, JsString.length.
  rewrite text_length.
  pose proof (nb_digits_unorm fp Hfp) as Hle.
  replace (Z.to_nat (Z.of_nat (nb_digits fp) - Z.of_nat (nb_digits (unorm fp))))
    with (nb_digits fp - nb_digits (unorm fp))%nat by lia.
  rewrite repeat_zero_text. f_equal.
  clear Hle. induction fp; try done;
    try (unfold unorm; simpl nzhead; by rewrite Nat.sub_diag).
  rewrite unorm_D0. destruct (uint_eq_dec fp Nil) as [->|Hne]; [done|].
  pose proof (nb_digits_unorm fp Hne).
  simpl nb_digits.
  replace (S (nb_digits fp) - nb_digits (unorm fp))%nat
    with (S (nb_digits fp - nb_digits (unorm fp)))%nat by lia.
  simpl. by rewrite IHfp.
Qed.

Lemma length_append a b :
  String.length (a ++ b) = (String.length a + String.length b)%nat.
Proof. induction a; simpl; congruence. Qed.

Lemma pad_digits ip fp :
  fp <> Nil ->
  JsString.padStart (text (unorm (Decimal.app ip fp)))
                    (Z.of_nat (nb_digits fp)) "0"
  = (text (nzhead ip) ++ text fp)%string.
Proof.
  intros Hfp. induction ip;
    [rewrite DecimalFacts.app_nil_l; by apply pad_unorm|..];
    (rewrite app_cons by done).
  1: by rewrite unorm_D0.
  all: unfold unorm; simpl nzhead; cbv iota;
    unfold JsString.padStart, JsString.length;
    rewrite text_length; simpl nb_digits;
    rewrite <- (text_length (Decimal.app ip fp)), text_app, length_append,
      !text_length;
    replace (Z.to_nat _) with 0%nat by lia; simpl; by rewrite text_app.
Qed.

(** Cutting a string where two parts were joined. *)
Lemma substring_all s : substring 0 (String.length s) s = s.
Proof. induction s; [done|]. simpl. by rewrite IHs. Qed.

Lemma substring_prefix a b : substring 0 (String.length a) (a ++ b) = a.
Proof.
  induction a; simpl; [by destruct b|]. by rewrite IHa.
Qed.

Lemma substring_suffix a b :
  substring (String.length a) (String.length b) (a ++ b) = b.
Proof. induction a; simpl; [apply substring_all | done]. Qed.

Lemma slice_integer_part a b :
  b <> EmptyString ->
  JsString.slice (a ++ b) 0 (Some (- JsString.length b)) = a.
Proof.
  intros Hb. unfold JsString.slice, JsString.relative, JsString.length.
  rewrite length_append. change (0 <? 0) with false. cbv iota.
  assert (0 < String.length b)%nat by (destruct b; simpl; [done|lia]).
  rewrite (proj2 (Z.ltb_lt _ _)) by lia.
  match goal with |- substring ?n ?m _ = _ =>
    replace n with 0%nat by lia; replace m with (String.length a) by lia end.
  apply substring_prefix.
Qed.

Lemma slice_fraction_part a b :
  b <> EmptyString ->
  JsString.slice (a ++ b) (- JsString.length b) None = b.
Proof.
  intros Hb. unfold JsString.slice, JsString.relative, JsString.length.
  rewrite length_append.
  assert (0 < String.length b)%nat by (destruct b; simpl; [done|lia]).
  rewrite (proj2 (Z.ltb_lt _ _)) by lia.
  match goal with |- substring ?n ?m _ = _ =>
    replace n with (String.length a) by lia;
    replace m with (String.length b) by lia end.
  apply substring_suffix.
Qed.

Lemma toString_of_uint u : BigInt.toString (Z.of_uint u) = text (unorm u).
Proof.
  unfold BigInt.toString. change (Z.of_uint u) with (Z.of_int (Pos u)).
  rewrite DecimalZ.to_of. simpl.
  pose proof (unorm_nonnil u). by destruct (unorm u).
Qed.

(** No carry when nothing is dropped, in the modes of the class. *)
Lemma builtin_carry_multiple settings m f :
  ROUNDING_MODE settings <> CUSTOM -> 0 < f ->
  carry_of settings (m * f) f = Ok 0.
Proof.
  intros Hmode Hf. unfold carry_of, rounders.
  assert (forall sign, Z.rem (sign * (m * f)) f = 0) as Hrem.
  { intros sign. rewrite Z.mul_assoc. apply Z.rem_mul. lia. }
  destruct (ROUNDING_MODE settings); try done;
    rewrite rem_ok by lia; rewrite Hrem; try done.
  change (Z.shiftl 0 1) with 0.
  rewrite Z.geb_leb. by rewrite (proj2 (Z.leb_gt f 0)) by lia.
Qed.

Lemma init_ok n d p s :
  0 <= d ->
  let P := Z.max p d in
  init (Ok n) d p false s =
    (Ok (mkN d (10 ^ d) (Z.quot (n * 10 ^ P) (10 ^ d)) P (10 ^ P)), s).
Proof.
  intros Hd P. unfold init.
  replace (if p <? d then d else p) with P
    by (unfold P; destruct (p <? d) eqn:E;
        [apply Z.ltb_lt in E | apply Z.ltb_ge in E]; lia).
  assert (10 ^ d <> 0) by (apply Z.pow_nonzero; lia).
  unfold assert, bind at 1. rewrite (proj2 (Z.geb_le d 0)) by lia.
  destruct s as [h err]. js_run. reflexivity.
Qed.

(** A non-negative decimal string comes back with the leading zeros of its
    integer part dropped, and nothing else changed. *)
Lemma round_trip_non_negative settings s ip fp :
  ROUNDING_MODE settings <> CUSTOM ->
  fp <> Nil ->
  exists s',
    (n <- new settings (Some (Str (text ip ++ String "." (text fp)))) None None false ;;
     toString settings n None) s
    = (Ok (text (nzhead ip) ++ String "." (text fp))%string, s').
Proof.
  intros Hmode Hfp.
  assert (0 < nb_digits fp)%nat as Hd by (destruct fp; simpl; [done|lia..]).
  set (source := (text ip ++ String "." (text fp))%string).
  set (d := Z.of_nat (nb_digits fp)).
  assert (JsString.indexOf source "." = Z.of_nat (nb_digits ip)) as Hindex
    by apply indexOf_text.
  assert (JsString.length source - 1 - JsString.indexOf source "." = d) as Hdec.
  { rewrite Hindex. unfold JsString.length, source.
    rewrite length_append. simpl String.length. rewrite !text_length. lia. }
  unfold new, constructor. simpl default.
  unfold JsString.includes. rewrite Hdec, Hindex.
  rewrite (proj2 (Z.ltb_ge _ 0)) by lia. simpl negb. cbv iota.
  unfold source at 1. rewrite split_text.
  change (JsString.join [text ip; text fp] EmptyString) with (text ip ++ text fp)%string.
  rewrite <- text_app, of_string_text.
  set (n := Z.of_uint (Decimal.app ip fp)).
  set (p := if DEFAULT_PRECISION settings =? 0 then d else DEFAULT_PRECISION settings).
  set (P := Z.max p d).
  rewrite (bind_ok _ _ _ _ _ (bind_ok _ _ _ _ _ (init_ok n d p s ltac:(lia)))).
  fold P. unfold alloc.
  set (A := mkN d (10 ^ d) (Z.quot (n * 10 ^ P) (10 ^ d)) P (10 ^ P)).
  set (s1 := set_heap (heap s ++ [A]) s).
  assert (heap s1 !! length (heap s) = Some A) as HA by apply at_top.
  unfold toString.
  rewrite (bind_ok _ _ _ _ _ (get_ok decimals s1 _ A HA)).
  assert (toDecimal settings (length (heap s)) (Some d) s1 = (Ok n, s1)) as Hn.
  { rewrite (toDecimal_spec settings _ (Some d) s1 A HA).
    simpl default. cbv zeta. change (precision A) with P.
    change (value A) with (Z.quot (n * 10 ^ P) (10 ^ d)).
    assert (Z.quot (n * 10 ^ P) (10 ^ d) = n * 10 ^ (P - d)) as ->.
    { replace P with ((P - d) + d) at 1 by lia.
      rewrite Z.pow_add_r by lia. rewrite Z.mul_assoc.
      apply Z.quot_mul. apply Z.pow_nonzero; lia. }
    destruct (d <? P) eqn:Hlt; [apply Z.ltb_lt in Hlt | apply Z.ltb_ge in Hlt].
    - rewrite builtin_carry_multiple by (try done; apply Z.pow_pos_nonneg; lia).
      rewrite Z.quot_mul by (apply Z.pow_nonzero; lia). f_equal. f_equal. lia.
    - replace (P - d) with 0 by lia. replace (d - P) with 0 by lia.
      f_equal. f_equal. simpl. lia. }
  change (decimals A) with d.
  rewrite (bind_ok _ _ _ _ _ Hn).
  eexists. unfold ret. f_equal. f_equal.
  rewrite (proj2 (Z.gtb_lt d 0)) by lia.
  unfold n. rewrite toString_of_uint. unfold d.
  rewrite (pad_digits ip fp Hfp).
  replace (Z.of_nat (nb_digits fp)) with (JsString.length (text fp))
    by (unfold JsString.length; by rewrite text_length).
  assert (text fp <> EmptyString) by by destruct fp.
  by rewrite slice_integer_part, slice_fraction_part.
Qed.

End Digits.

(** ** The tests of the repository, run on the embedding *)
Section Tests.

Local Open Scope string_scope.

Let made (v : NLike) (d p : option Z) (precise : bool) : outcome ref * state :=
  new defaults (Some v) d p precise empty.

(** [new N(10000, 2)], [new N(10000n, 2)], [new N('10000', 2)] and
    [new N('100.00')] are the same instance. *)
Example construction_equivalence :
  made (Num 10000) (Some 2) None false = made (Big 10000) (Some 2) None false /\
  made (Str "10000") (Some 2) None false = made (Big 10000) (Some 2) None false /\
  made (Str "100.00") None None false = made (Big 10000) (Some 2) None false /\
  made (Big 10000) (Some 2) None false =
    (Ok 0%nat, mkState [mkN 2 100 (100 * 10 ^ 80) 80 (10 ^ 80)] []).
Proof. by split_and!. Qed.

Example precise_to_string :
  fst ((n <- new defaults (Some (Big 123456789000000000)) (Some 2) (Some 10) true ;;
        toString defaults n None) empty) = Ok "12345678.90"%string.
Proof. reflexivity. Qed.

Example to_string_places :
  let x places :=
    fst ((n <- new defaults (Some (Big 123456789098765)) (Some 5) None false ;;
          toString defaults n places) empty) in
  x None = Ok "1234567890.98765"%string /\
  x (Some 5) = Ok "1234567890.98765"%string /\
  x (Some 8) = Ok "1234567890.98765000"%string /\
  x (Some 3) = Ok "1234567890.988"%string /\
  x (Some 0) = Ok "1234567891"%string /\
  x (Some (-3)) = Ok "1234568000"%string.
Proof. by split_and!. Qed.

Example rounding_modes :
  let rounded mode (text : string) :=
    fst ((n <- new defaults (Some (Str text)) None None false ;;
          valueOf (mkSettings 80 mode (fun _ _ => 0)) n) empty) in
  (rounded TOWARD_ZERO "1234.5" = Ok 1234 /\
   rounded TOWARD_ZERO "-1234.5" = Ok (-1234)) /\
  (rounded HALF_AWAY_FROM_ZERO "1234.5" = Ok 1235 /\
   rounded HALF_AWAY_FROM_ZERO "123.4" = Ok 123 /\
   rounded HALF_AWAY_FROM_ZERO "-123.4" = Ok (-123) /\
   rounded HALF_AWAY_FROM_ZERO "-1234.5" = Ok (-1235)) /\
  rounded CUSTOM "1234.5" = Ok 1234.
Proof. by split_and!. Qed.

(** With [A = 100.00], [B = 23.45000], [C = 123.450], [D = 50.0] and
    [E = 2.00000] at the default precision: [A + B = C], [C - B = A],
    [D * E = A], [A / E = D], and [B < A < C]. *)
Example arithmetic_identities :
  let A := mkN 2 100 (10000 * 10 ^ 78) 80 (10 ^ 80) in
  let B := mkN 5 100000 (2345000 * 10 ^ 75) 80 (10 ^ 80) in
  let C := mkN 3 1000 (123450 * 10 ^ 77) 80 (10 ^ 80) in
  let D := mkN 1 10 (500 * 10 ^ 79) 80 (10 ^ 80) in
  let E := mkN 5 100000 (200000 * 10 ^ 75) 80 (10 ^ 80) in
  let s := mkState [A; B; C; D; E] [] in
  let a := 0%nat in let b := 1%nat in let c := 2%nat in
  let d := 3%nat in let e := 4%nat in
  fst ((r <- plus defaults a (Obj b) ;; eq defaults r (Obj c)) s) = Ok true /\
  fst ((r <- minus defaults c (Obj b) ;; eq defaults r (Obj a)) s) = Ok true /\
  fst ((r <- mul defaults d (Obj e) ;; eq defaults r (Obj a)) s) = Ok true /\
  fst ((r <- div defaults a (Obj e) ;; eq defaults r (Obj d)) s) = Ok true /\
  fst (lt defaults b (Obj a) s) = Ok true /\
  fst (lte defaults a (Obj c) s) = Ok true /\
  fst (gt defaults a (Obj c) s) = Ok false /\
  fst (gte defaults a (Obj b) s) = Ok true.
Proof. by split_and!. Qed.

(** [sqrt(100.00) = 10.00], at precision 2. *)
Example square_root :
  fst ((n <- new defaults (Some (Big 10000)) (Some 2) (Some 2) false ;;
        r <- sqrt defaults n ;;
        toString defaults r None) empty) = Ok "10.00"%string.
Proof. reflexivity. Qed.

End Tests.

(** ** The claims *)

(** C1, at the failing input: [2.00 * 3.000] is [60.000] when the receiver
    has the lower precision and [6.000] when it has the higher one, and
    [6.00 / 3.000] is [0.200] or [2.000] likewise; [mul] and [div] divide
    by the factor the receiver had before [rebase] raised its copy.
    [plus_exact] and [minus_exact] are the independence of [plus] and
    [minus]. *)
Lemma mul_div_depend_on_operand_precision :
  let two := mkN 2 100 200 2 100 in
  let two' := mkN 3 1000 2000 3 1000 in
  let three := mkN 2 100 300 2 100 in
  let three' := mkN 3 1000 3000 3 1000 in
  let six := mkN 2 100 600 2 100 in
  let six' := mkN 3 1000 6000 3 1000 in
  let s := mkState [two; two'; three; three'; six; six'] [] in
  let result (run : outcome ref * state) :=
    match fst run with
    | Ok r => option_map exact (heap (snd run) !! r)
    | Throw _ => None
    end in
  (exact two == exact two' /\ exact three == exact three' /\
   exact six == exact six') /\
  (result (mul defaults 0%nat (Obj 3%nat) s) = Some (60000 # 1000) /\
   result (mul defaults 1%nat (Obj 2%nat) s) = Some (6000 # 1000)) /\
  (result (div defaults 4%nat (Obj 3%nat) s) = Some (200 # 1000) /\
   result (div defaults 5%nat (Obj 2%nat) s) = Some (2000 # 1000)).
Proof. by split_and!. Qed.

(** C2, at the failing input: ["-0.05"] comes back as [".-5"]; the sign is
    counted as a digit when the digits are padded to the decimals.
    [round_trip_non_negative] is the round trip of the strings without a
    sign. *)
Lemma small_negative_string_garbled :
  let round_trip (text : string) :=
    fst ((n <- new defaults (Some (Str text)) None None false ;;
          toString defaults n None) empty) in
  round_trip "-0.05"%string = Ok ".-5"%string /\
  round_trip "-0.005"%string = Ok ".0-5"%string /\
  round_trip "12.50"%string = Ok "12.50"%string /\
  round_trip "0.05"%string = Ok ".05"%string /\
  round_trip "-12.50"%string = Ok "-12.50"%string.
Proof. by split_and!. Qed.

(** C3. Every instance of a reachable store has [factor = 10^precision],
    [decimalsFactor = 10^decimals] and [precision >= decimals] (with
    [decimals >= 0]), and whatever public operation is called next, with
    whatever arguments and settings, and whether it returns or throws,
    every instance of the store it leaves has them too. *)
Theorem representation_invariant s :
  reachable s ->
  Forall invariant (heap s) /\
  forall settings c out s',
    perform settings c s = (out, s') -> Forall invariant (heap s').
Proof.
  assert (Hstep : forall settings c s0 out s',
    Forall invariant (heap s0) -> perform settings c s0 = (out, s') ->
    Forall invariant (heap s')).
  { intros settings c s0 out s' Hall H.
    apply perform_frame in H as [(added & -> & Hadded) _].
    apply Forall_app. split; [done | by apply Hadded]. }
  intros Hreach.
  assert (Forall invariant (heap s)) as Hall.
  { induction Hreach as [|settings c s0 out s1 _ IH H]; [constructor|].
    by eapply Hstep. }
  split; [done|]. intros settings c out s' H. by eapply Hstep.
Qed.

Lemma representation_invariant_witness :
  reachable empty /\
  Forall invariant
    (heap (snd (perform defaults (New (Some (Str "100.00")) None None false) empty))).
Proof.
  split; [constructor|].
  eapply (proj2 (representation_invariant empty reachable_empty) defaults).
  apply surjective_pairing.
Defined.

(** C4 does not hold as the specification states it: [div] throws a
    RangeError on a well-formed divisor whose value is zero. *)
Lemma div_by_zero_throws :
  let one := mkN 0 1 1 0 1 in
  let zero := mkN 0 1 0 0 1 in
  let s := mkState [one; zero] [] in
  invariant one /\ invariant zero /\
  fst (div defaults 0%nat (Obj 1%nat) s) = Throw RangeError /\
  ~ returns (div defaults 0%nat (Obj 1%nat)) s.
Proof.
  intros one zero s.
  assert (div defaults 0%nat (Obj 1%nat) s
          = (Throw RangeError, mkState [one; zero; one; zero] [])) as Hdiv
    by (subst s;
        by rewrite (div_obj defaults 0%nat 1%nat [one; zero] [] one zero eq_refl eq_refl)).
  split_and!; [by unfold invariant..| by rewrite Hdiv |].
  intros (r & s' & H). rewrite Hdiv in H. discriminate.
Qed.

(** C4, amended. On instances that satisfy the invariant, [plus], [minus],
    [mul], [multipliedBy], [sq], the five comparisons, [clone], [valueOf],
    [toPrecise], [toDecimal] and [toString] return; [div] returns when the
    value of the divisor is not zero, and throws a RangeError when it is. *)
Theorem total_operations settings s a b A B places :
  heap s !! a = Some A ->
  heap s !! b = Some B ->
  invariant A ->
  invariant B ->
  (returns (plus settings a (Obj b)) s /\
   returns (minus settings a (Obj b)) s /\
   returns (mul settings a (Obj b)) s /\
   returns (multipliedBy settings a (Obj b)) s /\
   returns (sq settings a) s) /\
  (returns (eq settings a (Obj b)) s /\
   returns (lt settings a (Obj b)) s /\
   returns (lte settings a (Obj b)) s /\
   returns (gt settings a (Obj b)) s /\
   returns (gte settings a (Obj b)) s) /\
  (returns (clone settings a) s /\
   returns (valueOf settings a) s /\
   returns (toPrecise a) s /\
   returns (toDecimal settings a places) s /\
   returns (toString settings a places) s) /\
  (value B <> 0 -> returns (div settings a (Obj b)) s) /\
  (value B = 0 ->
   exists s', div settings a (Obj b) s = (Throw RangeError, s')).
Proof.
  intros Ha Hb HA HB.
  assert (Hmul : forall c C, heap s !! c = Some C ->
            returns (mul settings a (Obj c)) s).
  { intros c C Hc. destruct s as [h err]. unfold returns.
    rewrite (mul_obj settings a c h err A C Ha Hc). cbv zeta.
    pose proof (factor_pos A HA).
    rewrite div_ok by lia. by eexists _, _. }
  assert (Hcmp : forall test, returns (compare settings test a (Obj b)) s).
  { intros test. destruct s as [h err]. unfold returns.
    rewrite (compare_obj settings test a b h err A B Ha Hb). by eexists _, _. }
  assert (value (snd (rebased A B)) = 0 <-> value B = 0) as Hzero.
  { destruct (rebased_max A B) as (_ & _ & -> & _).
    assert (10 ^ (Z.max (precision A) (precision B) - precision B) <> 0)
      by (apply Z.pow_nonzero; lia).
    split; [intros [?|?]%Z.mul_eq_0; [done|lia] | intros ->; lia]. }
  split_and!; try apply Hcmp.
  - destruct s as [h err]. unfold returns.
    rewrite (plus_obj settings a b h err A B Ha Hb). by eexists _, _.
  - destruct s as [h err]. unfold returns.
    rewrite (minus_obj settings a b h err A B Ha Hb). by eexists _, _.
  - by eapply Hmul.
  - by eapply Hmul.
  - by eapply Hmul.
  - unfold returns. rewrite (clone_ok settings s a A Ha). by eexists _, _.
  - by eapply valueOf_returns.
  - unfold returns, toPrecise. rewrite (get_ok value s a A Ha). by eexists _, _.
  - by eapply toDecimal_returns.
  - by eapply toString_returns.
  - intros Hne. destruct s as [h err]. unfold returns.
    rewrite (div_obj settings a b h err A B Ha Hb). cbv zeta.
    rewrite div_ok by (by rewrite Hzero). by eexists _, _.
  - intros Heq. destruct s as [h err].
    rewrite (div_obj settings a b h err A B Ha Hb). cbv zeta.
    unfold BigInt.div. rewrite (proj2 Hzero Heq). simpl. by eexists.
Qed.

Lemma total_operations_witness :
  let a := mkN 2 100 10000 2 100 in
  let b := mkN 5 100000 200000 5 100000 in
  let s := mkState [a; b] [] in
  returns (mul defaults 0%nat (Obj 1%nat)) s /\
  returns (toString defaults 0%nat None) s /\
  returns (div defaults 0%nat (Obj 1%nat)) s.
Proof.
  intros a b s.
  assert (invariant a) as Ha by (unfold invariant; simpl; lia).
  assert (invariant b) as Hb by (unfold invariant; simpl; lia).
  pose proof (total_operations defaults s 0%nat 1%nat a b None
                eq_refl eq_refl Ha Hb) as (Harith & _ & Hconv & Hdiv & _).
  split_and!.
  - apply Harith.
  - apply Hconv.
  - apply Hdiv. simpl. lia.
Defined.

(** C5. Narrowing a value [v] by a divisor [d = 10^k], [k > 0], in the
    HALF_AWAY_FROM_ZERO mode: with [r] the part of [|v|] below [d], the
    carry is [+1] when [v > 0] and [2 * r >= d], [-1] when [v < 0] and
    [2 * r >= d], and [0] otherwise. *)
Theorem half_away_from_zero_rule settings this s v k :
  ROUNDING_MODE settings = HALF_AWAY_FROM_ZERO ->
  0 < k ->
  let d := 10 ^ k in
  let r := Z.abs v mod d in
  let carry := rounder settings this (Some v) (Some d) s in
  (0 < v -> d <= 2 * r -> carry = (Ok 1, s)) /\
  (v < 0 -> d <= 2 * r -> carry = (Ok (-1), s)) /\
  (v = 0 \/ 2 * r < d -> carry = (Ok 0, s)).
Proof.
  intros Hmode Hk d r carry.
  assert (0 < d) as Hd by (apply Z.pow_pos_nonneg; lia).
  assert (carry = (Ok (if Z.shiftl r 1 >=? d then sign_of v else 0), s)) as ->.
  { unfold carry, rounder, rounders. rewrite Hmode.
    cbv [bind ret lift]. rewrite rem_ok by lia.
    replace (Z.rem (sign_of v * v) d) with r; [done|].
    unfold r. rewrite Z.rem_mod_nonneg; [| unfold sign_of; destruct (v <? 0) eqn:E; lia | lia].
    f_equal. unfold sign_of. destruct (v <? 0) eqn:E; lia. }
  rewrite Z.shiftl_mul_pow2 by lia. change (2 ^ 1) with 2.
  assert (0 <= r < d) as Hr by (apply Z.mod_pos_bound; lia).
  assert (v = 0 -> r = 0) as Hzero by (intros ->; apply Z.mod_0_l; lia).
  unfold sign_of.
  destruct (r * 2 >=? d) eqn:Hge; rewrite Z.geb_leb in Hge;
    [apply Z.leb_le in Hge | apply Z.leb_gt in Hge];
    destruct (v <? 0) eqn:Hv;
    [apply Z.ltb_lt in Hv | apply Z.ltb_ge in Hv
    |apply Z.ltb_lt in Hv | apply Z.ltb_ge in Hv];
    split_and!; intros; try done; try (f_equal; f_equal; lia); lia.
Qed.

Lemma half_away_from_zero_rule_witness :
  rounder defaults 0%nat (Some 12345) (Some (10 ^ 1)) empty = (Ok 1, empty) /\
  rounder defaults 0%nat (Some (-12345)) (Some (10 ^ 1)) empty = (Ok (-1), empty) /\
  rounder defaults 0%nat (Some 1234) (Some (10 ^ 1)) empty = (Ok 0, empty).
Proof.
  split_and!.
  - apply (half_away_from_zero_rule defaults 0%nat empty 12345 1 eq_refl);
      [lia | lia | vm_compute; discriminate].
  - apply (half_away_from_zero_rule defaults 0%nat empty (-12345) 1 eq_refl);
      [lia | lia | vm_compute; discriminate].
  - apply (half_away_from_zero_rule defaults 0%nat empty 1234 1 eq_refl);
      [lia | right; vm_compute; reflexivity].
Defined.

(** C6. Whatever is called, arithmetic and comparisons included, every
    instance that existed before the call is afterwards the same record,
    field for field, the receiver and an instance operand among them; and
    an instance that a call returns did not exist before, so it is
    neither of the operands. *)
Theorem operands_untouched settings c s out s' :
  perform settings c s = (out, s') ->
  (forall r o, heap s !! r = Some o -> heap s' !! r = Some o) /\
  (forall r, out = Ok (Instance r) ->
     heap s !! r = None /\ is_Some (heap s' !! r) /\
     forall a o, heap s !! a = Some o -> r <> a).
Proof.
  intros H. apply perform_frame in H as [(added & Hh & _) Hfresh].
  split.
  - intros r o Hr. rewrite Hh. by apply lookup_app_l_Some.
  - intros r Hout. destruct (Hfresh r Hout) as [Hnone Hsome].
    split_and!; [done..|]. intros a o Ha ->. congruence.
Qed.

Lemma operands_untouched_witness :
  let a := mkN 2 100 10000 2 100 in
  let b := mkN 5 100000 2345000 5 100000 in
  let s := mkState [a; b] [] in
  let run := perform defaults (Plus 0%nat (Obj 1%nat)) s in
  (heap (snd run) !! 0%nat = Some a /\ heap (snd run) !! 1%nat = Some b) /\
  fst run = Ok (Instance 2%nat).
Proof.
  intros a b s run. split; [|reflexivity].
  pose proof (operands_untouched defaults (Plus 0%nat (Obj 1%nat)) s
                (fst run) (snd run) (surjective_pairing run)) as [Hold _].
  split; apply Hold; reflexivity.
Defined.

(** C7, at the failing input: in the CUSTOM mode with a function that
    always carries, on an instance of precision 0, [valueOf] adds the
    carry and [toDecimal(0)] does not.  [valueOf_toDecimal_0] and
    [builtin_carry_1] give the agreement everywhere else. *)
Lemma valueOf_not_toDecimal_0 :
  let always_up := mkSettings 80 CUSTOM (fun _ _ => 1) in
  let five := mkN 0 1 5 0 1 in
  let s := mkState [five] [] in
  new always_up (Some (Big 5)) (Some 0) (Some 0) false empty = (Ok 0%nat, s) /\
  invariant five /\
  valueOf always_up 0%nat s = (Ok 6, s) /\
  toDecimal always_up 0%nat (Some 0) s = (Ok 5, s).
Proof. by split_and!. Qed.

(** C8 does not hold as the specification states it: an instance of
    magnitude below 2, both as stored value and as decimal value ([0.1],
    stored as [1] at precision 1), does not come back unchanged. *)
Lemma sqrt_below_two_changes :
  let tenth := mkN 1 10 1 1 10 in
  invariant tenth /\
  0 <= value tenth < 2 /\
  (exact tenth < 2)%Q /\
  sqrt defaults 0%nat (mkState [tenth] []) =
    (Ok 1%nat, mkState [tenth; set_value 3 tenth] []).
Proof.
  intros tenth.
  split_and!; [by unfold invariant | simpl; lia | simpl; lia | done | reflexivity].
Qed.

(** C8, amended. [sqrt] throws exactly when the stored value is negative;
    on a non-negative value it returns a new instance that differs from
    the receiver in its value at most, and has the very value of the
    receiver when [value * factor < 2]. *)
Theorem sqrt_domain settings this h err A :
  h !! this = Some A ->
  invariant A ->
  let s := mkState h err in
  (value A < 0 ->
   sqrt settings this s =
     (Throw (Thrown "square root of negative numbers is not supported"),
      mkState (h ++ [A]) err)) /\
  (0 <= value A ->
   exists y,
     sqrt settings this s = (Ok (length h), mkState (h ++ [set_value y A]) err) /\
     (value A * factor A < 2 -> y = value A)).
Proof.
  intros Ha HA s. pose proof (factor_pos A HA) as Hf.
  unfold s. rewrite (sqrt_spec settings this h err A Ha). cbv zeta.
  split.
  - intros Hneg. by rewrite (proj2 (Z.ltb_lt _ _)) by nia.
  - intros Hpos. rewrite (proj2 (Z.ltb_ge _ _)) by nia.
    destruct (value A * factor A <? 2) eqn:H2.
    + exists (value A). split; [|done]. by destruct A.
    + apply Z.ltb_ge in H2.
      destruct (sqrt_loop_ok (value A * factor A)
                  (Z.quot (value A * factor A) 2 + 1) (value A * factor A))
        as [y Hy]; [lia | lia | ].
      rewrite Hy. exists y. split; [done|lia].
Qed.

Lemma sqrt_domain_witness :
  let hundred := mkN 2 100 10000 2 100 in
  let minus_one := mkN 0 1 (-1) 0 1 in
  let zero := mkN 0 1 0 0 1 in
  fst (sqrt defaults 0%nat (mkState [minus_one] []))
    = Throw (Thrown "square root of negative numbers is not supported") /\
  (exists y, sqrt defaults 0%nat (mkState [hundred] [])
             = (Ok 1%nat, mkState [hundred; set_value y hundred] [])) /\
  sqrt defaults 0%nat (mkState [zero] []) = (Ok 1%nat, mkState [zero; zero] []).
Proof.
  intros hundred minus_one zero.
  assert (invariant hundred) as H1 by (unfold invariant; simpl; lia).
  assert (invariant minus_one) as H2 by (unfold invariant; simpl; lia).
  assert (invariant zero) as H3 by (unfold invariant; simpl; lia).
  split_and!.
  - rewrite (proj1 (sqrt_domain defaults 0%nat [minus_one] [] minus_one eq_refl H2));
      [reflexivity | simpl; lia].
  - destruct (proj2 (sqrt_domain defaults 0%nat [hundred] [] hundred eq_refl H1))
      as (y & Hy & _); [simpl; lia|].
    exists y. exact Hy.
  - destruct (proj2 (sqrt_domain defaults 0%nat [zero] [] zero eq_refl H3))
      as (y & Hy & Hsame); [simpl; lia|].
    rewrite Hy, Hsame; [reflexivity | simpl; lia].
Defined.

(** C9 does not hold as the specification states it: a string with a
    decimal point is constructed whatever [decimals] is supplied, a
    negative one included. *)
Lemma negative_decimals_accepted :
  exists o,
    new defaults (Some (Str "1.5")) (Some (-1)) None false empty
      = (Ok 0%nat, mkState [o] []) /\
    decimals o = 1 /\ exact o == 1.5.
Proof. eexists. split_and!; [reflexivity | reflexivity | by vm_compute]. Qed.

(** C9, amended. When [decimals] is negative and the value is a number, a
    bigint or a string without a decimal point, construction reports
    "Decimals cannot be negative." and throws, and the store has no new
    instance; for an instance or a string with a decimal point the
    [decimals] argument is not used. *)
Theorem negative_decimals_rejected settings v d p b s :
  d < 0 ->
  (decimals_ignored v = false ->
   new settings (Some v) (Some d) p b s =
     (Throw RangeError,
      mkState (heap s) (stderr s ++ ["Decimals cannot be negative."%string]))) /\
  (decimals_ignored v = true ->
   new settings (Some v) (Some d) p b s = new settings (Some v) None p b s).
Proof.
  intros Hd.
  assert (Hinit : forall raw p',
    init raw d p' b s =
      (Throw RangeError,
       mkState (heap s) (stderr s ++ ["Decimals cannot be negative."%string]))).
  { intros raw p'. unfold init, assert, bind, lift, BigInt.pow.
    rewrite (proj2 (Z.ltb_lt d 0) Hd).
    replace (d >=? 0) with false; [done|].
    symmetry. rewrite Z.geb_leb. apply Z.leb_gt. lia. }
  split; intros Hv.
  - unfold new, constructor. simpl default.
    destruct v as [str|n|n|r]; simpl in Hv; try discriminate.
    + rewrite Hv. unfold bind at 1. by rewrite Hinit.
    + unfold bind at 1. by rewrite Hinit.
    + unfold bind at 1. by rewrite Hinit.
  - unfold new, constructor. simpl default.
    destruct v as [str|n|n|r]; simpl in Hv; try discriminate; [|done].
    by rewrite Hv.
Qed.

Lemma negative_decimals_rejected_witness :
  new defaults (Some (Big 15)) (Some (-1)) None false empty =
    (Throw RangeError, mkState [] ["Decimals cannot be negative."%string]) /\
  new defaults (Some (Str "1.5")) (Some (-1)) None false empty =
    new defaults (Some (Str "1.5")) None None false empty.
Proof.
  assert (-1 < 0) as H by lia.
  split.
  - exact (proj1 (negative_decimals_rejected defaults (Big 15) (-1) None false
                    empty H) eq_refl).
  - exact (proj2 (negative_decimals_rejected defaults (Str "1.5") (-1) None false
                    empty H) eq_refl).
Defined.

(** C10. For all instances [a] and [b], at whatever precisions,
    [a.plus(b).minus(b).eq(a)] returns [true]. *)
Theorem plus_minus_eq settings s a b A B :
  heap s !! a = Some A ->
  heap s !! b = Some B ->
  exists s',
    (sum <- plus settings a (Obj b) ;;
     back <- minus settings sum (Obj b) ;;
     eq settings back (Obj a)) s = (Ok true, s').
Proof.
  destruct s as [h err]. simpl. intros Ha Hb.
  rewrite (bind_ok _ _ _ _ _ (plus_obj settings a b h err A B Ha Hb)).
  set (A1 := fst (rebased A B)). set (B1 := snd (rebased A B)).
  set (R1 := set_value (value A1 + value B1) A1).
  set (h1 := h ++ [R1; B1]).
  assert (h1 !! length h = Some R1) as HR1 by apply at_top.
  assert (h1 !! b = Some B) as Hb1 by by apply lookup_app_l_Some.
  assert (h1 !! a = Some A) as Ha1 by by apply lookup_app_l_Some.
  rewrite (bind_ok _ _ _ _ _ (minus_obj settings _ b h1 err R1 B HR1 Hb1)).
  set (R1' := fst (rebased R1 B)). set (B2 := snd (rebased R1 B)).
  set (R2 := set_value (value R1' - value B2) R1').
  set (h2 := h1 ++ [R2; B2]).
  assert (h2 !! length h1 = Some R2) as HR2 by apply at_top.
  assert (h2 !! a = Some A) as Ha2 by by apply lookup_app_l_Some.
  unfold eq. rewrite (compare_obj settings Z.eqb _ a h2 err R2 A HR2 Ha2).
  eexists. f_equal. f_equal. apply Z.eqb_eq.
  destruct (rebased_max A B) as (HvA1 & HpA1 & HvB1 & _).
  destruct (rebased_max R1 B) as (HvR1' & HpR1' & HvB2 & _).
  destruct (rebased_max R2 A) as (HvR2' & _ & HvA3 & _).
  fold A1 B1 in HvA1, HpA1, HvB1. fold R1' B2 in HvR1', HpR1', HvB2.
  rewrite HvR2', HvA3.
  assert (precision R2 = Z.max (precision A) (precision B)) as HpR2.
  { change (precision R2) with (precision R1'). rewrite HpR1'.
    change (precision R1) with (precision A1). rewrite HpA1. lia. }
  assert (precision R1 = Z.max (precision A) (precision B)) as HpR1
    by (change (precision R1) with (precision A1); by rewrite HpA1).
  rewrite HpR2.
  replace (Z.max (Z.max (precision A) (precision B)) (precision A))
    with (Z.max (precision A) (precision B)) by lia.
  rewrite Z.sub_diag, Z.mul_1_r.
  change (value R2) with (value R1' - value B2).
  rewrite HvR1', HvB2, HpR1.
  replace (Z.max (Z.max (precision A) (precision B)) (precision B))
    with (Z.max (precision A) (precision B)) by lia.
  rewrite Z.sub_diag, Z.mul_1_r.
  change (value R1) with (value A1 + value B1).
  rewrite HvA1, HvB1. lia.
Qed.

Lemma plus_minus_eq_witness :
  let a := mkN 2 100 10000 2 100 in
  let b := mkN 5 100000 2345000 5 100000 in
  exists s',
    (sum <- plus defaults 0%nat (Obj 1%nat) ;;
     back <- minus defaults sum (Obj 1%nat) ;;
     eq defaults back (Obj 0%nat)) (mkState [a; b] []) = (Ok true, s').
Proof.
  intros a b.
  exact (plus_minus_eq defaults (mkState [a; b] []) 0%nat 1%nat a b eq_refl eq_refl).
Defined.

(** * Further properties *)

(** ** Fractions of integers *)

Section Fractions.

(** Fractions over one positive denominator compare as their numerators. *)
Lemma frac_lt a b f :
  0 < f -> (inject_Z a / inject_Z f < inject_Z b / inject_Z f)%Q <-> a < b.
Proof.
  intros Hf. destruct f as [|p|p]; try lia.
  unfold Qlt, Qdiv, Qmult, Qinv, inject_Z. simpl. nia.
Qed.

Lemma frac_le a b f :
  0 < f -> (inject_Z a / inject_Z f <= inject_Z b / inject_Z f)%Q <-> a <= b.
Proof.
  intros Hf. destruct f as [|p|p]; try lia.
  unfold Qle, Qdiv, Qmult, Qinv, inject_Z. simpl. nia.
Qed.

Lemma frac_eq a b f :
  0 < f -> (inject_Z a / inject_Z f == inject_Z b / inject_Z f)%Q <-> a = b.
Proof.
  intros Hf. destruct f as [|p|p]; try lia.
  unfold Qeq, Qdiv, Qmult, Qinv, inject_Z. simpl. nia.
Qed.

(** The magnitude of a fraction. *)
Lemma Qabs_frac n d :
  d <> 0 ->
  Qabs (inject_Z n / inject_Z d) == inject_Z (Z.abs n) / inject_Z (Z.abs d).
Proof.
  intros Hd. destruct d as [|p|p]; try lia;
    unfold Qabs, Qeq, Qdiv, Qmult, Qinv, inject_Z; simpl; destruct n; simpl; lia.
Qed.

Lemma inject_nonzero f : f <> 0 -> ~ inject_Z f == 0.
Proof. intros Hf E. unfold Qeq in E. simpl in E. lia. Qed.

Lemma inject_Z_sub a b : inject_Z (a - b) == inject_Z a - inject_Z b.
Proof. unfold Z.sub. by rewrite inject_Z_plus, inject_Z_opp. Qed.

Lemma sum_fractions x y F :
  0 < F ->
  inject_Z (x + y) / inject_Z F == inject_Z x / inject_Z F + inject_Z y / inject_Z F.
Proof.
  intros HF. pose proof (inject_nonzero F ltac:(lia)).
  rewrite inject_Z_plus. by field.
Qed.

Lemma difference_fractions x y F :
  0 < F ->
  inject_Z (x - y) / inject_Z F == inject_Z x / inject_Z F - inject_Z y / inject_Z F.
Proof.
  intros HF. pose proof (inject_nonzero F ltac:(lia)).
  rewrite inject_Z_sub. by field.
Qed.

(** Truncating division: the quotient times the divisor is not larger in
    magnitude than the dividend, and less than the divisor away from it. *)
Lemma quot_shrinks t f : f <> 0 -> Z.abs (Z.quot t f * f) <= Z.abs t.
Proof.
  intros Hf. rewrite Z.abs_mul, <- Z.quot_abs by done.
  pose proof (Z.mul_quot_le (Z.abs t) (Z.abs f) ltac:(lia) ltac:(lia)). lia.
Qed.

Lemma quot_remainder t f : f <> 0 -> Z.abs (t - Z.quot t f * f) < Z.abs f.
Proof.
  intros Hf. pose proof (Z.quot_rem' t f) as E.
  replace (t - Z.quot t f * f) with (Z.rem t f) by lia.
  by apply Z.rem_bound_abs.
Qed.

(** The floor of a quotient, from its truncation. *)
Lemma floor_of_quot v f :
  0 < f ->
  v / f = if (v <? 0) && negb (Z.rem v f =? 0) then Z.quot v f - 1 else Z.quot v f.
Proof.
  intros Hf. pose proof (Z.quot_rem' v f) as E.
  pose proof (Z.rem_bound_abs v f ltac:(lia)) as Hb.
  remember (Z.quot v f) as q eqn:Eq. remember (Z.rem v f) as r eqn:Er.
  destruct (v <? 0) eqn:Hv; [apply Z.ltb_lt in Hv | apply Z.ltb_ge in Hv].
  - assert (r <= 0) as Hr by (subst r; apply Z.rem_nonpos; lia).
    destruct (r =? 0) eqn:Hr0; [apply Z.eqb_eq in Hr0 | apply Z.eqb_neq in Hr0];
      simpl; symmetry.
    + apply (Z.div_unique v f q 0); lia.
    + apply (Z.div_unique v f (q - 1) (r + f)); lia.
  - assert (0 <= r) as Hr by (subst r; apply Z.rem_nonneg; lia).
    simpl. symmetry. apply (Z.div_unique v f q r); lia.
Qed.

End Fractions.

(** ** The operands after [rebase] *)

Section Rebasing.

Variable settings : Settings.
Implicit Types (h : list N) (s : state) (A B I : N).

(** After [rebase] both operands are fractions over one factor. *)
Lemma rebased_fractions A B :
  invariant A -> invariant B ->
  let F := factor (fst (rebased A B)) in
  0 < F /\
  exact A == inject_Z (value (fst (rebased A B))) / inject_Z F /\
  exact B == inject_Z (value (snd (rebased A B))) / inject_Z F.
Proof.
  intros HA HB F.
  destruct (rebased_exact A B HA HB) as [EA EB].
  pose proof (rebased_same_factor A B HA HB) as Hf.
  destruct (rebased_invariant A B HA HB) as [H1 _].
  split_and!.
  - by apply factor_pos.
  - by rewrite <- EA.
  - rewrite <- EB. unfold exact. by rewrite Hf.
Qed.

(** An operand that is not more precise leaves the receiver as it is. *)
Lemma rebased_lower A B :
  invariant A -> invariant B -> precision B <= precision A ->
  fst (rebased A B) = A /\
  factor (snd (rebased A B)) = factor A /\
  (value (snd (rebased A B)) = 0 <-> value B = 0).
Proof.
  intros HA HB Hle.
  assert (fst (rebased A B) = A) as H1.
  { unfold rebased. destruct (precision B <? precision A) eqn:E; [done|].
    apply Z.ltb_ge in E. rewrite Z.gtb_ltb.
    by rewrite (proj2 (Z.ltb_ge (precision A) (precision B))) by lia. }
  split_and!; [done| |].
  - rewrite (rebased_same_factor A B HA HB). by rewrite H1.
  - destruct (rebased_max A B) as (_ & _ & -> & _).
    assert (10 ^ (Z.max (precision A) (precision B) - precision B) <> 0)
      by (apply Z.pow_nonzero; lia).
    split; [intros [?|?]%Z.mul_eq_0; [done|lia] | intros ->; lia].
Qed.

Lemma rebased_same A B :
  precision B = precision A -> rebased A B = (A, B).
Proof.
  intros H. unfold rebased. rewrite H, Z.ltb_irrefl, Z.gtb_ltb, Z.ltb_irrefl. done.
Qed.

(** X1. [rebase] on a fresh copy [A] of the receiver, with an instance
    operand [B]: it returns a new copy of the operand, both copies end at
    the larger of the two precisions with one factor, each stands for the
    decimal value it stood for before, and both satisfy the invariant. *)
Theorem rebase_is_lossless h err A b B :
  (h ++ [A]) !! b = Some B ->
  invariant A -> invariant B ->
  exists A' B',
    rebase settings (length h) (Obj b) (mkState (h ++ [A]) err)
      = (Ok (S (length h)), mkState (h ++ [A'; B']) err) /\
    precision A' = Z.max (precision A) (precision B) /\
    precision B' = precision A' /\
    factor B' = factor A' /\
    exact A' == exact A /\ exact B' == exact B /\
    invariant A' /\ invariant B'.
Proof.
  intros Hb HA HB. rewrite (rebase_obj settings h err A b B Hb).
  eexists _, _. split; [reflexivity|].
  destruct (rebased_max A B) as (_ & HpA & _ & HpB).
  destruct (rebased_exact A B HA HB) as [EA EB].
  destruct (rebased_invariant A B HA HB) as [IA IB].
  split_and!; try done.
  - by rewrite HpB.
  - by apply rebased_same_factor.
Qed.

End Rebasing.

(** ** Sums and differences *)

Section Sums.

Variable settings : Settings.
Implicit Types (h : list N) (s : state) (A B I : N).

(** X2. [a.plus(b)] returns a new instance whose decimal value is the sum
    of the decimal values of [a] and [b], exactly; its precision is the
    larger of the two, its decimals are those of the receiver, and it
    satisfies the invariant. *)
Theorem plus_adds_decimal_values a b h err A B :
  h !! a = Some A -> h !! b = Some B ->
  invariant A -> invariant B ->
  exists R rest,
    plus settings a (Obj b) (mkState h err)
      = (Ok (length h), mkState (h ++ R :: rest) err) /\
    exact R == exact A + exact B /\
    precision R = Z.max (precision A) (precision B) /\
    decimals R = decimals A /\
    invariant R.
Proof.
  intros Ha Hb HA HB. rewrite (plus_obj settings a b h err A B Ha Hb). cbv zeta.
  eexists _, _. split; [reflexivity|].
  destruct (rebased_fractions A B HA HB) as (HF & EA & EB).
  destruct (rebased_invariant A B HA HB) as [H1 _].
  destruct (rebased_max A B) as (_ & Hp & _).
  split_and!.
  - rewrite EA, EB. by apply sum_fractions.
  - done.
  - unfold rebased, raised.
    by destruct (precision B <? precision A), (precision B >? precision A).
  - by apply invariant_set_value.
Qed.

(** X3. [a.minus(b)] returns a new instance whose decimal value is the
    difference of the decimal values of [a] and [b], exactly, with the
    larger precision and the decimals of the receiver. *)
Theorem minus_subtracts_decimal_values a b h err A B :
  h !! a = Some A -> h !! b = Some B ->
  invariant A -> invariant B ->
  exists R rest,
    minus settings a (Obj b) (mkState h err)
      = (Ok (length h), mkState (h ++ R :: rest) err) /\
    exact R == exact A - exact B /\
    precision R = Z.max (precision A) (precision B) /\
    decimals R = decimals A /\
    invariant R.
Proof.
  intros Ha Hb HA HB. rewrite (minus_obj settings a b h err A B Ha Hb). cbv zeta.
  eexists _, _. split; [reflexivity|].
  destruct (rebased_fractions A B HA HB) as (HF & EA & EB).
  destruct (rebased_invariant A B HA HB) as [H1 _].
  destruct (rebased_max A B) as (_ & Hp & _).
  split_and!.
  - rewrite EA, EB. by apply difference_fractions.
  - done.
  - unfold rebased, raised.
    by destruct (precision B <? precision A), (precision B >? precision A).
  - by apply invariant_set_value.
Qed.

End Sums.

(** ** Products and quotients *)

Section Products.

Variable settings : Settings.
Implicit Types (h : list N) (s : state) (A B I : N).

(** X4. When the operand is not more precise than the receiver,
    [a.mul(b)] is the product of the decimal values truncated toward zero
    at the precision of the receiver: the result is not larger in
    magnitude than the product and is less than one unit of the last
    place away from it. *)
Theorem mul_truncates_product a b h err A B :
  h !! a = Some A -> h !! b = Some B ->
  invariant A -> invariant B ->
  precision B <= precision A ->
  exists R rest,
    mul settings a (Obj b) (mkState h err)
      = (Ok (length h), mkState (h ++ R :: rest) err) /\
    precision R = precision A /\
    (Qabs (exact R) <= Qabs (exact A * exact B))%Q /\
    (Qabs (exact A * exact B - exact R) < 1 / inject_Z (factor R))%Q.
Proof.
  intros Ha Hb HA HB Hle.
  rewrite (mul_obj settings a b h err A B Ha Hb). cbv zeta.
  destruct (rebased_fractions A B HA HB) as (_ & _ & EB).
  destruct (rebased_lower A B HA HB Hle) as (E1 & Hf & _).
  rewrite E1 in *.
  pose proof (factor_pos A HA) as HF.
  rewrite div_ok by lia. simpl finish.
  eexists _, _. split; [reflexivity|]. split; [reflexivity|].
  unfold exact in *. cbn [value factor set_value].
  remember (value (snd (rebased A B))) as y eqn:Hy. clear Hy.
  remember (factor A) as F eqn:HeqF. remember (value A) as x eqn:Hx.
  remember (Z.quot (x * y) F) as q eqn:Hq.
  pose proof (inject_nonzero F ltac:(lia)) as HnF.
  assert (0 < F * F) as HFF by nia.
  assert (inject_Z q / inject_Z F == inject_Z (q * F) / inject_Z (F * F)) as ER
    by (rewrite !inject_Z_mult; by field).
  assert (inject_Z x / inject_Z F * (inject_Z (value B) / inject_Z (factor B))
          == inject_Z (x * y) / inject_Z (F * F)) as EP
    by (rewrite EB, !inject_Z_mult; by field).
  assert (1 / inject_Z F == inject_Z F / inject_Z (F * F)) as EU
    by (rewrite inject_Z_mult; by field).
  rewrite EP, ER, EU.
  split.
  - rewrite !Qabs_frac by lia. rewrite frac_le by lia.
    subst q. apply quot_shrinks. lia.
  - assert (inject_Z (x * y) / inject_Z (F * F) - inject_Z (q * F) / inject_Z (F * F)
            == inject_Z (x * y - q * F) / inject_Z (F * F)) as ->
      by (rewrite inject_Z_sub, !inject_Z_mult; by field).
    rewrite Qabs_frac by lia. rewrite (Z.abs_eq (F * F)) by lia.
    rewrite frac_lt by lia.
    subst q. pose proof (quot_remainder (x * y) F). lia.
Qed.

(** X5. When the operand is not more precise than the receiver and is
    not zero, [a.div(b)] is the quotient of the decimal values truncated
    toward zero at the precision of the receiver. *)
Theorem div_truncates_quotient a b h err A B :
  h !! a = Some A -> h !! b = Some B ->
  invariant A -> invariant B ->
  precision B <= precision A ->
  value B <> 0 ->
  exists R rest,
    div settings a (Obj b) (mkState h err)
      = (Ok (length h), mkState (h ++ R :: rest) err) /\
    precision R = precision A /\
    (Qabs (exact R) <= Qabs (exact A / exact B))%Q /\
    (Qabs (exact A / exact B - exact R) < 1 / inject_Z (factor R))%Q.
Proof.
  intros Ha Hb HA HB Hle Hnz.
  rewrite (div_obj settings a b h err A B Ha Hb). cbv zeta.
  destruct (rebased_fractions A B HA HB) as (_ & _ & EB).
  destruct (rebased_lower A B HA HB Hle) as (E1 & Hf & Hzero).
  rewrite E1 in *.
  pose proof (factor_pos A HA) as HF.
  rewrite div_ok by (by rewrite Hzero). simpl finish.
  eexists _, _. split; [reflexivity|]. split; [reflexivity|].
  unfold exact in *. cbn [value factor set_value].
  assert (value (snd (rebased A B)) <> 0) as Hy by (by rewrite Hzero).
  remember (value (snd (rebased A B))) as y eqn:Ey. clear Ey.
  remember (factor A) as F eqn:HeqF. remember (value A) as x eqn:Hx.
  remember (Z.quot (F * x) y) as q eqn:Hq.
  pose proof (inject_nonzero F ltac:(lia)) as HnF.
  pose proof (inject_nonzero y Hy) as Hny.
  assert (y * F <> 0) as HyF by nia.
  assert (inject_Z q / inject_Z F == inject_Z (q * y) / inject_Z (y * F)) as ER
    by (rewrite !inject_Z_mult; by field).
  assert (inject_Z x / inject_Z F / (inject_Z (value B) / inject_Z (factor B))
          == inject_Z (F * x) / inject_Z (y * F)) as EP
    by (rewrite EB, !inject_Z_mult; by field).
  assert (1 / inject_Z F == inject_Z (Z.abs y) / inject_Z (Z.abs (y * F))) as EU.
  { rewrite Z.abs_mul, (Z.abs_eq F) by lia. rewrite inject_Z_mult.
    assert (~ inject_Z (Z.abs y) == 0) by (apply inject_nonzero; lia).
    by field. }
  rewrite EP, ER, EU.
  assert (0 < Z.abs (y * F)) as Hpos by lia.
  split.
  - rewrite !Qabs_frac by lia. rewrite frac_le by lia.
    subst q. by apply quot_shrinks.
  - assert (inject_Z (F * x) / inject_Z (y * F) - inject_Z (q * y) / inject_Z (y * F)
            == inject_Z (F * x - q * y) / inject_Z (y * F)) as ->
      by (rewrite inject_Z_sub, !inject_Z_mult; by field).
    rewrite Qabs_frac by lia. rewrite frac_lt by lia.
    subst q. by apply quot_remainder.
Qed.

(** X6. [a.sq()] is never negative: it is the square of the decimal
    value cut to the precision of the receiver, so it lies within one
    unit of the last place below the square. *)
Theorem sq_truncates_square a h err A :
  h !! a = Some A ->
  invariant A ->
  exists R rest,
    sq settings a (mkState h err)
      = (Ok (length h), mkState (h ++ R :: rest) err) /\
    0 <= value R /\
    (exact R <= exact A * exact A)%Q /\
    (exact A * exact A < exact R + 1 / inject_Z (factor R))%Q.
Proof.
  intros Ha HA. unfold sq.
  rewrite (mul_obj settings a a h err A A Ha Ha). cbv zeta.
  rewrite rebased_same by done. cbn [fst snd].
  pose proof (factor_pos A HA) as HF.
  rewrite div_ok by lia. simpl finish.
  eexists _, _. split; [reflexivity|].
  unfold exact. cbn [value factor set_value].
  remember (factor A) as F eqn:HeqF. remember (value A) as x eqn:Hx.
  remember (Z.quot (x * x) F) as q eqn:Hq.
  pose proof (inject_nonzero F ltac:(lia)) as HnF.
  assert (0 < F * F) as HFF by nia.
  assert (0 <= q) as Hq0 by (subst q; apply Z.quot_pos; nia).
  assert (q * F <= x * x < q * F + F) as Hbound.
  { subst q. pose proof (Z.mul_quot_le (x * x) F ltac:(nia) ltac:(lia)).
    pose proof (Z.mul_succ_quot_gt (x * x) F ltac:(nia) ltac:(lia)). lia. }
  assert (inject_Z q / inject_Z F == inject_Z (q * F) / inject_Z (F * F)) as ER
    by (rewrite !inject_Z_mult; by field).
  assert (inject_Z x / inject_Z F * (inject_Z x / inject_Z F)
          == inject_Z (x * x) / inject_Z (F * F)) as EP
    by (rewrite !inject_Z_mult; by field).
  assert (inject_Z q / inject_Z F + 1 / inject_Z F
          == inject_Z (q * F + F) / inject_Z (F * F)) as EU
    by (rewrite inject_Z_plus, !inject_Z_mult; by field).
  split; [done|]. rewrite EU, EP, ER.
  rewrite frac_le, frac_lt by lia. lia.
Qed.

End Products.

(** ** The Newton loop *)

Section Root.

Variable settings : Settings.
Implicit Types (h : list N) (s : state) (A B I : N).

(** One Newton step from a positive guess stays at or above the root. *)
Lemma newton_step_above x z :
  0 <= x -> 1 <= z ->
  let z' := Z.quot (Z.quot x z + z) 2 in
  x < (z' + 1) * (z' + 1).
Proof.
  intros Hx Hz. cbv zeta.
  assert (0 <= Z.quot x z) as Hq by (apply Z.quot_pos; lia).
  pose proof (Z.mul_succ_quot_gt x z Hx ltac:(lia)) as Hup.
  remember (Z.quot x z) as q eqn:Eq. clear Eq.
  remember (Z.quot (q + z) 2) as z' eqn:Ez.
  assert (q + z - 1 <= 2 * z') as Hz' by lia.
  clear Ez.
  assert (4 * (z * (q + 1)) <= (z + q + 1) * (z + q + 1)) as Hamgm
    by (pose proof (Z.square_nonneg (z - (q + 1))); lia).
  assert ((z + q + 1) * (z + q + 1) <= (2 * z' + 2) * (2 * z' + 2)) as Hmono
    by (apply Z.mul_le_mono_nonneg; lia).
  lia.
Qed.

(** The loop, from a guess above the root: it ends at the root.  [y] is
    the previous guess, or the radicand before the first step, and is the
    result once the next guess [z] is not below it. *)
Lemma sqrt_loop_root x z y :
  3 <= x -> 1 <= z ->
  x < (z + 1) * (z + 1) ->
  (y <= z -> y * y <= x < (y + 1) * (y + 1)) ->
  exists r, sqrt_loop x z y = Ok r /\ 0 <= r /\ r * r <= x < (r + 1) * (r + 1).
Proof.
  funelim (sqrt_loop x z y); intros Hx Hz Habove Hdone.
  - exists y. split; [done|].
    match goal with E : (_ <? _) = false |- _ =>
      pose proof (proj1 (Z.ltb_ge _ _) E) as Hge end.
    specialize (Hdone ltac:(lia)). split; [|done]. nia.
  - match goal with E : BigInt.div _ _ = Throw _ |- _ =>
      pose proof E as E'; rewrite div_ok in E' by lia; discriminate E' end.
  - pose proof Hq as Eq. pose proof Hz' as Ez. pose proof Hlt as Elt.
    rewrite div_ok in Eq by lia. injection Eq as <-.
    rewrite div_ok in Ez by lia. injection Ez as <-.
    apply Z.ltb_lt in Elt.
    apply H; [done| | |].
    + clear - Hx Hz.
      assert (0 <= Z.quot x z) by (apply Z.quot_pos; lia).
      destruct (Z.eq_dec z 1) as [->|Hne].
      * rewrite Z.quot_1_r in *. lia.
      * generalize dependent (Z.quot x z). intros. lia.
    + apply newton_step_above; lia.
    + clear - Hx Hz Habove. intros Hstay. split; [|done].
      assert (0 <= Z.quot x z) as Hq by (apply Z.quot_pos; lia).
      pose proof (Z.mul_quot_le x z ltac:(lia) ltac:(lia)) as Hlow.
      assert (z <= Z.quot x z) as Hle.
      { generalize dependent (Z.quot x z). intros. lia. }
      generalize dependent (Z.quot x z). intros. nia.
  - match goal with E : BigInt.div _ _ = Throw _ |- _ =>
      pose proof E as E'; rewrite div_ok in E' by lia; discriminate E' end.
Qed.

(** X7. On an instance with [value * factor >= 2], [sqrt] returns a copy
    whose value is the integer square root of [value * factor], the
    largest [r] with [r * r <= value * factor]; the one exception is
    [value * factor = 2], where the loop is not entered and the value
    is [2]. *)
Theorem sqrt_is_integer_root this h err A :
  h !! this = Some A ->
  2 <= value A * factor A ->
  let x := value A * factor A in
  sqrt settings this (mkState h err) =
    (Ok (length h),
     mkState (h ++ [set_value (if x =? 2 then 2 else Z.sqrt x) A]) err).
Proof.
  intros Ha Hx x. rewrite (sqrt_spec settings this h err A Ha). cbv zeta.
  rewrite (proj2 (Z.ltb_ge _ 0)) by lia.
  rewrite (proj2 (Z.ltb_ge _ 2)) by lia.
  fold x in Hx |- *.
  destruct (x =? 2) eqn:E2; [apply Z.eqb_eq in E2 | apply Z.eqb_neq in E2].
  - rewrite E2. reflexivity.
  - destruct (sqrt_loop_root x (Z.quot x 2 + 1) x) as (r & -> & Hr0 & Hr);
      [lia | lia | | lia |].
    + assert (0 <= Z.quot x 2 /\ x <= 2 * Z.quot x 2 + 1) as Hhalf by lia.
      generalize dependent (Z.quot x 2). intros. nia.
    + assert (Z.sqrt x = r) as -> by (apply Z.sqrt_unique; lia). done.
Qed.

End Root.

(** ** Order *)

Section Order.

Variable settings : Settings.
Implicit Types (h : list N) (s : state) (A B I : N).

(** X8. The five comparisons decide the order of the decimal values,
    whatever the precisions of the two instances: [eq] is their equality,
    [lt] and [gt] the strict orders, [lte] and [gte] the large ones. *)
Theorem comparisons_decide_order a b h err A B :
  h !! a = Some A -> h !! b = Some B ->
  invariant A -> invariant B ->
  let s := mkState h err in
  fst (eq settings a (Obj b) s) = Ok (Qeq_bool (exact A) (exact B)) /\
  fst (lt settings a (Obj b) s) = Ok (negb (Qle_bool (exact B) (exact A))) /\
  fst (lte settings a (Obj b) s) = Ok (Qle_bool (exact A) (exact B)) /\
  fst (gt settings a (Obj b) s) = Ok (negb (Qle_bool (exact A) (exact B))) /\
  fst (gte settings a (Obj b) s) = Ok (Qle_bool (exact B) (exact A)).
Proof.
  intros Ha Hb HA HB s.
  destruct (rebased_fractions A B HA HB) as (HF & EA & EB).
  set (F := factor (fst (rebased A B))) in *.
  set (x := value (fst (rebased A B))) in *.
  set (y := value (snd (rebased A B))) in *.
  assert (Hle : forall u v, Qle_bool (inject_Z u / inject_Z F) (inject_Z v / inject_Z F)
                            = (u <=? v)).
  { intros u v. apply eq_true_iff_eq.
    by rewrite Qle_bool_iff, frac_le, Z.leb_le. }
  assert (Qle_bool (exact A) (exact B) = (x <=? y)) as HAB
    by (rewrite <- Hle; apply eq_true_iff_eq; rewrite !Qle_bool_iff; by rewrite EA, EB).
  assert (Qle_bool (exact B) (exact A) = (y <=? x)) as HBA
    by (rewrite <- Hle; apply eq_true_iff_eq; rewrite !Qle_bool_iff; by rewrite EA, EB).
  assert (Qeq_bool (exact A) (exact B) = (x =? y)) as Heq.
  { apply eq_true_iff_eq. rewrite Qeq_bool_iff, EA, EB, frac_eq by done.
    by rewrite Z.eqb_eq. }
  unfold s, eq, lt, lte, gt, gte.
  rewrite !(compare_obj settings _ a b h err A B Ha Hb). cbv zeta. simpl fst.
  fold x y. rewrite HAB, HBA, Heq.
  split_and!; f_equal.
  - rewrite Z.ltb_antisym. done.
  - rewrite Z.gtb_ltb. by rewrite Z.ltb_antisym.
  - by rewrite Z.geb_leb.
Qed.

(** X9. [clone] returns a new reference to a record with the fields of
    the receiver, which [eq] finds equal to the receiver; neither call
    changes the receiver. *)
Theorem clone_is_equal_copy a s A :
  heap s !! a = Some A ->
  exists s',
    (c <- clone settings a ;;
     same <- eq settings a (Obj c) ;;
     ret (c, same)) s = (Ok (length (heap s), true), s') /\
    heap s' !! a = Some A /\
    heap s' !! length (heap s) = Some A.
Proof.
  intros Ha. destruct s as [h err]. cbn [heap] in *.
  rewrite (bind_ok _ _ _ _ _ (clone_ok settings (mkState h err) a A Ha)).
  js_tidy.
  assert ((h ++ [A]) !! a = Some A) as Ha' by by apply lookup_app_l_Some.
  assert ((h ++ [A]) !! length h = Some A) as Hc by apply at_top.
  unfold eq.
  rewrite (bind_ok _ _ _ _ _
             (compare_obj settings Z.eqb a (length h) (h ++ [A]) err A A Ha' Hc)).
  rewrite rebased_same by done. cbn [fst snd]. rewrite Z.eqb_refl.
  eexists. split; [reflexivity|]. cbn [heap]. split.
  - rewrite <- app_assoc. by apply lookup_app_l_Some.
  - rewrite <- app_assoc. apply at_top.
Qed.

End Order.

(** ** Building instances *)

Section Building.

Variable settings : Settings.
Implicit Types (h : list N) (s : state) (A B I : N).

(** The constructor on an integer with [isPrecise]. *)
Lemma init_precise n d p s :
  0 <= d ->
  let P := Z.max p d in
  init (Ok n) d p true s = (Ok (mkN d (10 ^ d) n P (10 ^ P)), s).
Proof.
  intros Hd P. unfold init.
  replace (if p <? d then d else p) with P
    by (unfold P; destruct (p <? d) eqn:E;
        [apply Z.ltb_lt in E | apply Z.ltb_ge in E]; lia).
  unfold assert, bind at 1. rewrite (proj2 (Z.geb_le d 0)) by lia.
  destruct s as [h err]. js_run. reflexivity.
Qed.

(** Raising to the precision and dividing by the decimals is exact. *)
Lemma scaled_exactly m d P :
  0 <= d <= P -> Z.quot (m * 10 ^ P) (10 ^ d) = m * 10 ^ (P - d).
Proof.
  intros H. replace P with ((P - d) + d) at 1 by lia.
  rewrite Z.pow_add_r by lia. rewrite Z.mul_assoc.
  apply Z.quot_mul. apply Z.pow_nonzero; lia.
Qed.

(** The instance made from an integer and its decimals. *)
Lemma new_magnitude v m d p s :
  v = Num m \/ v = Big m ->
  0 <= d ->
  let P := Z.max (default (DEFAULT_PRECISION settings) p) d in
  new settings (Some v) (Some d) p false s =
    (Ok (length (heap s)),
     set_heap (heap s ++ [mkN d (10 ^ d) (m * 10 ^ (P - d)) P (10 ^ P)]) s).
Proof.
  intros Hv Hd P.
  assert (0 <= d <= P) as HP by (unfold P; lia).
  unfold new, constructor. simpl default.
  assert (init (Ok m) d (default (DEFAULT_PRECISION settings) p) false s
          = (Ok (mkN d (10 ^ d) (m * 10 ^ (P - d)) P (10 ^ P)), s)) as Hinit.
  { rewrite init_ok by done. cbv zeta. fold P. by rewrite scaled_exactly. }
  destruct Hv as [-> | ->]; by rewrite (bind_ok _ _ _ _ _ Hinit).
Qed.

(** X10. [new N(m, d, p)] of an integer [m] with [d >= 0] decimals stores
    [m * 10^(P - d)] at the precision [P], the larger of [p] (or the
    default precision) and [d]: the instance stands for [m / 10^d]
    exactly, and [toDecimal()] gives [m] back in the modes of the
    class. *)
Theorem construction_round_trip v m d p s :
  v = Num m \/ v = Big m ->
  0 <= d ->
  ROUNDING_MODE settings <> CUSTOM ->
  let P := Z.max (default (DEFAULT_PRECISION settings) p) d in
  let o := mkN d (10 ^ d) (m * 10 ^ (P - d)) P (10 ^ P) in
  let s' := set_heap (heap s ++ [o]) s in
  new settings (Some v) (Some d) p false s = (Ok (length (heap s)), s') /\
  exact o == inject_Z m / inject_Z (10 ^ d) /\
  toDecimal settings (length (heap s)) None s' = (Ok m, s').
Proof.
  intros Hv Hd Hmode P o s'.
  assert (0 <= d <= P) as HP by (unfold P; lia).
  split_and!.
  - by apply new_magnitude.
  - unfold exact, o. cbn [value factor].
    replace P with (d + (P - d)) at 2 by lia.
    apply padded_exact; lia.
  - assert (heap s' !! length (heap s) = Some o) as Ho by apply at_top.
    rewrite (toDecimal_spec settings _ None s' o Ho).
    simpl default. cbv zeta. cbn [precision value o].
    destruct (d <? P) eqn:Hlt; [apply Z.ltb_lt in Hlt | apply Z.ltb_ge in Hlt].
    + rewrite builtin_carry_multiple by (try done; apply Z.pow_pos_nonneg; lia).
      rewrite Z.quot_mul by (apply Z.pow_nonzero; lia). do 2 f_equal. lia.
    + replace (d - P) with 0 by lia. replace (P - d) with 0 by lia.
      do 2 f_equal. simpl. lia.
Qed.

(** X11. An instance is rebuilt from its precise value: constructing with
    [toPrecise()], the decimals and the precision of an instance and
    [isPrecise] makes a new instance with the same five fields. *)
Theorem precise_round_trip a s A :
  heap s !! a = Some A ->
  invariant A ->
  (v <- toPrecise a ;;
   new settings (Some (Big v)) (Some (decimals A)) (Some (precision A)) true) s
  = (Ok (length (heap s)), set_heap (heap s ++ [A]) s).
Proof.
  intros Ha (Hf & Hdf & Hd). unfold toPrecise.
  rewrite (bind_ok _ _ _ _ _ (get_ok value s a A Ha)).
  unfold new, constructor. simpl default.
  rewrite (bind_ok _ _ _ _ _ (init_precise (value A) (decimals A) (precision A) s
                                ltac:(lia))).
  cbv zeta. rewrite Z.max_l by lia. rewrite <- Hf, <- Hdf.
  by destruct A.
Qed.

End Building.

(** ** Operands that are numbers *)

Section Primitives.

Variable settings : Settings.
Implicit Types (h : list N) (s : state) (A B I : N).

(** [nfy] on a number or bigint, the receiver being the newest object. *)
Lemma nfy_integer h err A arg n :
  invariant A ->
  arg = Num n \/ arg = Big n ->
  nfy settings (length h) arg (mkState (h ++ [A]) err) =
    (Ok (S (length h)), mkState (h ++ [A; integer_at (precision A) n]) err).
Proof.
  intros (_ & _ & HA) Harg. unfold nfy.
  assert ((own <- get precision (length h) ;;
           new settings (Some arg) (Some 0) (Some own) false) (mkState (h ++ [A]) err)
          = (Ok (S (length h)), mkState (h ++ [A; integer_at (precision A) n]) err)) as H.
  { js_step. unfold new, constructor. simpl default.
    assert (init (Ok n) 0 (precision A) false (mkState (h ++ [A]) err)
            = (Ok (integer_at (precision A) n), mkState (h ++ [A]) err)) as Hinit.
    { rewrite init_ok by lia. cbv zeta. rewrite Z.max_l by lia.
      unfold integer_at. change (10 ^ 0) with 1. by rewrite Z.quot_1_r. }
    destruct Harg as [-> | ->]; rewrite (bind_ok _ _ _ _ _ Hinit);
      unfold alloc; js_tidy; reflexivity. }
  by destruct Harg as [-> | ->].
Qed.

(** The start of a binary method on a number or bigint operand. *)
Lemma operands_integer {T} (k : ref -> ref -> Js T) a arg n h err A :
  h !! a = Some A ->
  invariant A ->
  arg = Num n \/ arg = Big n ->
  (copy <- clone settings a ;;
   rebased <- rebase settings copy arg ;;
   k copy rebased) (mkState h err) =
  k (length h) (S (length h))
    (mkState (h ++ [A; integer_at (precision A) n]) err).
Proof.
  intros Ha HA Harg.
  rewrite (bind_ok _ _ _ _ _ (clone_ok settings (mkState h err) a A Ha)).
  js_tidy.
  rewrite (bind_ok _ _ _ _ _
             (rebase_run settings h err err A _ arg
                (nfy_integer h err A arg n HA Harg))).
  by rewrite rebased_same.
Qed.

End Primitives.

Section Integers.

Variable settings : Settings.
Implicit Types (h : list N) (s : state) (A B I : N).

(** X12. A number or bigint operand [n] counts as the whole number [n]:
    [a.plus(n)], [a.minus(n)] and [a.mul(n)] are exactly the decimal value
    of [a] plus, minus and times [n], and [a.eq(n)] tells whether the
    decimal value of [a] is [n]. *)
Theorem integer_operands a arg n h err A :
  h !! a = Some A ->
  invariant A ->
  arg = Num n \/ arg = Big n ->
  let s := mkState h err in
  (exists R rest,
     plus settings a arg s = (Ok (length h), mkState (h ++ R :: rest) err) /\
     exact R == exact A + inject_Z n) /\
  (exists R rest,
     minus settings a arg s = (Ok (length h), mkState (h ++ R :: rest) err) /\
     exact R == exact A - inject_Z n) /\
  (exists R rest,
     mul settings a arg s = (Ok (length h), mkState (h ++ R :: rest) err) /\
     exact R == exact A * inject_Z n) /\
  fst (eq settings a arg s) = Ok (Qeq_bool (exact A) (inject_Z n)).
Proof.
  intros Ha HA Harg s. pose proof (factor_pos A HA) as HF.
  pose proof HA as (Hf & _ & Hp).
  set (I := integer_at (precision A) n).
  assert (Hthis : (h ++ [A; I]) !! a = Some A) by by apply lookup_app_l_Some.
  pose proof (inject_nonzero (factor A) ltac:(lia)) as HnF.
  assert (inject_Z n == inject_Z (n * factor A) / inject_Z (factor A)) as En
    by (rewrite inject_Z_mult; by field).
  split_and!.
  - unfold s, plus.
    rewrite (operands_integer settings _ a arg n h err A Ha HA Harg). fold I.
    js_run. eexists _, _. split; [reflexivity|].
    unfold exact. cbn [value factor set_value I integer_at]. rewrite <- Hf.
    rewrite En. by apply sum_fractions.
  - unfold s, minus.
    rewrite (operands_integer settings _ a arg n h err A Ha HA Harg). fold I.
    js_run. eexists _, _. split; [reflexivity|].
    unfold exact. cbn [value factor set_value I integer_at]. rewrite <- Hf.
    rewrite En. by apply difference_fractions.
  - unfold s, mul.
    rewrite (operands_integer settings _ a arg n h err A Ha HA Harg). fold I.
    js_run. eexists _, _. split; [reflexivity|].
    unfold exact. cbn [value factor set_value I integer_at]. rewrite <- Hf.
    rewrite Z.mul_assoc, Z.quot_mul by lia.
    rewrite inject_Z_mult. by field.
  - unfold s, eq, compare.
    rewrite (operands_integer settings _ a arg n h err A Ha HA Harg). fold I.
    js_run. simpl. f_equal.
    apply eq_true_iff_eq. rewrite Qeq_bool_iff, Z.eqb_eq.
    unfold exact. rewrite En, frac_eq by lia. by rewrite Hf.
Qed.

End Integers.

(** ** Strings of digits *)

Section Texts.

Variable settings : Settings.
Local Abbreviation text := NilEmpty.string_of_uint.
Implicit Types (h : list N) (s : state) (A : N) (u ip fp : uint).

(** A string of digits has no point. *)
Lemma no_point u : JsString.indexOf (text u) "." = -1.
Proof. induction u; [done|..]; simpl; by rewrite IHu. Qed.

(** [precision ||= decimals] changes nothing: the precision is raised to
    the decimals anyway. *)
Lemma init_default_precision raw d p b s :
  0 <= d ->
  init raw d (if p =? 0 then d else p) b s = init raw d p b s.
Proof.
  intros Hd. unfold init.
  replace (if (if p =? 0 then d else p) <? d then d else if p =? 0 then d else p)
    with (if p <? d then d else p); [done|].
  destruct (p =? 0) eqn:E; [apply Z.eqb_eq in E | done]. subst p.
  rewrite Z.ltb_irrefl. destruct (0 <? d) eqn:E; [done|].
  apply Z.ltb_ge in E. lia.
Qed.

Lemma append_empty (t : string) : (t ++ EmptyString)%string = t.
Proof. induction t; simpl; congruence. Qed.

(** X13. Construction from a string of digits with a decimal point is
    construction from the integer of all its digits with as many decimals
    as there are digits after the point, whatever [decimals] argument is
    given; construction from a string of digits without a point is
    construction from its integer. *)
Theorem strings_are_magnitudes ip fp u d p b s :
  new settings (Some (Str (text ip ++ String "." (text fp)))) d p b s
    = new settings (Some (Big (Z.of_uint (Decimal.app ip fp))))
        (Some (Z.of_nat (nb_digits fp))) p b s /\
  new settings (Some (Str (text u))) d p b s
    = new settings (Some (Big (Z.of_uint u))) d p b s.
Proof.
  split.
  - set (source := (text ip ++ String "." (text fp))%string).
    assert (JsString.indexOf source "." = Z.of_nat (nb_digits ip)) as Hindex
      by apply indexOf_text.
    assert (JsString.length source - 1 - JsString.indexOf source "."
            = Z.of_nat (nb_digits fp)) as Hdec.
    { rewrite Hindex. unfold JsString.length, source.
      rewrite length_append. simpl String.length. rewrite !text_length. lia. }
    unfold new, constructor. simpl default.
    unfold JsString.includes. rewrite Hdec, Hindex.
    rewrite (proj2 (Z.ltb_ge _ 0)) by lia. simpl negb. cbv iota.
    unfold source at 1. rewrite split_text.
    change (JsString.join [text ip; text fp] EmptyString)
      with (text ip ++ text fp)%string.
    rewrite <- text_app, of_string_text.
    unfold bind. by rewrite init_default_precision by lia.
  - unfold new, constructor. simpl default.
    unfold JsString.includes. rewrite no_point. simpl negb. cbv iota.
    by rewrite of_string_text.
Qed.

(** The text of an instance whose decimals are the digits [fp]. *)
Lemma toString_digits this s ip fp P :
  ROUNDING_MODE settings <> CUSTOM ->
  fp <> Nil ->
  let d := Z.of_nat (nb_digits fp) in
  heap s !! this =
    Some (mkN d (10 ^ d) (Z.of_uint (Decimal.app ip fp) * 10 ^ (P - d)) P (10 ^ P)) ->
  d <= P ->
  toString settings this None s
    = (Ok (text (nzhead ip) ++ String "." (text fp))%string, s).
Proof.
  intros Hmode Hfp d HA HP.
  assert (0 < nb_digits fp)%nat as Hd by (destruct fp; simpl; [done|lia..]).
  set (n := Z.of_uint (Decimal.app ip fp)) in *.
  set (A := mkN d (10 ^ d) (n * 10 ^ (P - d)) P (10 ^ P)) in *.
  unfold toString.
  rewrite (bind_ok _ _ _ _ _ (get_ok decimals s _ A HA)).
  assert (toDecimal settings this (Some d) s = (Ok n, s)) as Hn.
  { rewrite (toDecimal_spec settings _ (Some d) s A HA).
    simpl default. cbv zeta. change (precision A) with P.
    change (value A) with (n * 10 ^ (P - d)).
    destruct (d <? P) eqn:Hlt; [apply Z.ltb_lt in Hlt | apply Z.ltb_ge in Hlt].
    - rewrite builtin_carry_multiple by (try done; apply Z.pow_pos_nonneg; lia).
      rewrite Z.quot_mul by (apply Z.pow_nonzero; lia). f_equal. f_equal. lia.
    - replace (P - d) with 0 by lia. replace (d - P) with 0 by lia.
      f_equal. f_equal. simpl. lia. }
  change (decimals A) with d.
  rewrite (bind_ok _ _ _ _ _ Hn).
  unfold ret. f_equal. f_equal.
  rewrite (proj2 (Z.gtb_lt d 0)) by lia.
  unfold n. rewrite toString_of_uint. unfold d.
  rewrite (pad_digits ip fp Hfp).
  replace (Z.of_nat (nb_digits fp)) with (JsString.length (text fp))
    by (unfold JsString.length; by rewrite text_length).
  assert (text fp <> EmptyString) by by destruct fp.
  by rewrite slice_integer_part, slice_fraction_part.
Qed.

(** X14. In the modes of the class, a string of digits, a point and at
    least one digit, constructed with any [decimals] and [precision]
    arguments, is given back by [toString()] with the leading zeros of
    its integer part dropped and nothing else changed. *)
Theorem decimal_text_round_trip ip fp d p s :
  ROUNDING_MODE settings <> CUSTOM ->
  fp <> Nil ->
  exists s',
    (n <- new settings (Some (Str (text ip ++ String "." (text fp)))) d p false ;;
     toString settings n None) s
    = (Ok (text (nzhead ip) ++ String "." (text fp))%string, s').
Proof.
  intros Hmode Hfp.
  destruct (strings_are_magnitudes ip fp Nil d p false s) as [Hnew _].
  destruct (construction_round_trip settings (Big (Z.of_uint (Decimal.app ip fp)))
              (Z.of_uint (Decimal.app ip fp)) (Z.of_nat (nb_digits fp)) p s
              ltac:(by right) ltac:(lia) Hmode) as (Hbig & _ & _).
  rewrite <- Hnew in Hbig. rewrite (bind_ok _ _ _ _ _ Hbig).
  eexists. eapply toString_digits; [done | done | apply at_top | lia].
Qed.

(** X15. In the modes of the class, an instance constructed from an
    integer with no decimals, at any precision, prints as that integer,
    negative ones included. *)
Theorem integer_text_round_trip v m p s :
  v = Num m \/ v = Big m ->
  ROUNDING_MODE settings <> CUSTOM ->
  exists s',
    (n <- new settings (Some v) None p false ;; toString settings n None) s
    = (Ok (BigInt.toString m), s').
Proof.
  intros Hv Hmode.
  destruct (construction_round_trip settings v m 0 p s Hv ltac:(lia) Hmode)
    as (Hnew & _ & Hdec).
  change (new settings (Some v) (Some 0) p false s)
    with (new settings (Some v) None p false s) in Hnew.
  rewrite (bind_ok _ _ _ _ _ Hnew).
  eexists. unfold toString.
  erewrite bind_ok by (apply get_ok; apply at_top).
  cbn [decimals].
  match type of Hdec with toDecimal _ ?r None ?s1 = _ =>
    assert (toDecimal settings r (Some 0) s1 = (Ok m, s1)) as Hdec0
      by (rewrite <- Hdec;
          by erewrite !(toDecimal_spec settings r _ s1) by apply at_top) end.
  rewrite (bind_ok _ _ _ _ _ Hdec0).
  unfold ret. do 2 f_equal.
  change (0 >? 0) with false. cbv iota.
  unfold JsString.padEnd, JsString.padStart. simpl Z.to_nat.
  replace (Z.to_nat (0 - JsString.length (BigInt.toString m))) with 0%nat
    by (unfold JsString.length; lia).
  simpl. by rewrite append_empty.
Qed.

End Texts.

(** ** Operands that are strings *)

Section TextOperands.

Variable settings : Settings.
Local Abbreviation text := NilEmpty.string_of_uint.
Implicit Types (h : list N) (s : state) (A : N) (u ip fp : uint).

(** The start of a binary method, given what [nfy] makes of the operand. *)
Lemma operands_made {T} (k : ref -> ref -> Js T) a arg h err A I :
  h !! a = Some A ->
  nfy settings (length h) arg (mkState (h ++ [A]) err) =
    (Ok (S (length h)), mkState (h ++ [A; I]) err) ->
  (copy <- clone settings a ;;
   rebased <- rebase settings copy arg ;;
   k copy rebased) (mkState h err) =
  k (length h) (S (length h))
    (mkState (h ++ [fst (rebased A I); snd (rebased A I)]) err).
Proof.
  intros Ha Hnfy.
  rewrite (bind_ok _ _ _ _ _ (clone_ok settings (mkState h err) a A Ha)).
  js_tidy.
  by rewrite (bind_ok _ _ _ _ _ (rebase_run settings h err err A I arg Hnfy)).
Qed.

(** [nfy] on a string with a point: the precision of the receiver, raised
    to the decimals of the string. *)
Lemma nfy_decimal_text h err A ip fp :
  let d := Z.of_nat (nb_digits fp) in
  let P := Z.max (precision A) d in
  nfy settings (length h) (Str (text ip ++ String "." (text fp)))
      (mkState (h ++ [A]) err) =
    (Ok (S (length h)),
     mkState (h ++ [A; mkN d (10 ^ d)
                          (Z.of_uint (Decimal.app ip fp) * 10 ^ (P - d)) P (10 ^ P)])
             err).
Proof.
  intros d P. unfold nfy. js_step.
  destruct (strings_are_magnitudes settings ip fp Nil (Some 0) (Some (precision A))
              false (mkState (h ++ [A]) err)) as [-> _].
  rewrite (new_magnitude settings (Big (Z.of_uint (Decimal.app ip fp)))
             (Z.of_uint (Decimal.app ip fp)) (Z.of_nat (nb_digits fp))
             (Some (precision A))
             (mkState (h ++ [A]) err) ltac:(by right) ltac:(lia)).
  by js_tidy.
Qed.

(** X16. An operand given as a string of digits with a decimal point
    counts as the decimal number it writes, also when it has more
    decimals than the receiver has precision: [plus] and [minus] are
    exact and [eq] compares with its value. *)
Theorem decimal_text_operands a ip fp h err A :
  h !! a = Some A ->
  invariant A ->
  let operand := Str (text ip ++ String "." (text fp)) in
  let q := (inject_Z (Z.of_uint (Decimal.app ip fp))
            / inject_Z (10 ^ Z.of_nat (nb_digits fp)))%Q in
  let s := mkState h err in
  (exists R rest,
     plus settings a operand s = (Ok (length h), mkState (h ++ R :: rest) err) /\
     exact R == exact A + q) /\
  (exists R rest,
     minus settings a operand s = (Ok (length h), mkState (h ++ R :: rest) err) /\
     exact R == exact A - q) /\
  fst (eq settings a operand s) = Ok (Qeq_bool (exact A) q).
Proof.
  intros Ha HA operand q s.
  set (d := Z.of_nat (nb_digits fp)) in *.
  set (P := Z.max (precision A) d).
  set (I := mkN d (10 ^ d) (Z.of_uint (Decimal.app ip fp) * 10 ^ (P - d)) P (10 ^ P)).
  assert (invariant I) as HI by (unfold invariant, I; cbn; lia).
  assert (exact I == q) as EI.
  { unfold exact, I, q. cbn [value factor].
    replace P with (d + (P - d)) at 2 by lia. apply padded_exact; lia. }
  destruct (rebased_fractions A I HA HI) as (HF & EA & EB).
  pose proof (nfy_decimal_text h err A ip fp) as Hnfy. cbv zeta in Hnfy.
  fold d P I in Hnfy.
  assert (q == exact I) as Eq by by symmetry.
  clearbody q.
  split_and!.
  - unfold s, plus. rewrite (operands_made _ a operand h err A I Ha Hnfy).
    js_run. eexists _, _. split; [reflexivity|].
    rewrite Eq, EA, EB. by apply sum_fractions.
  - unfold s, minus. rewrite (operands_made _ a operand h err A I Ha Hnfy).
    js_run. eexists _, _. split; [reflexivity|].
    rewrite Eq, EA, EB. by apply difference_fractions.
  - unfold s, eq, compare. rewrite (operands_made _ a operand h err A I Ha Hnfy).
    js_run. simpl. f_equal.
    apply eq_true_iff_eq. rewrite Qeq_bool_iff, Z.eqb_eq, Eq, EA, EB.
    by rewrite frac_eq.
Qed.

End TextOperands.

(** ** Rounding modes *)

Section Modes.

Implicit Types (h : list N) (s : state) (A : N).

(** The sign used by the rounders: zero counts as positive. *)
Lemma sign_of_cases v :
  (v < 0 /\ sign_of v = -1) \/ (0 <= v /\ sign_of v = 1).
Proof.
  unfold sign_of. destruct (v <? 0) eqn:E;
    [apply Z.ltb_lt in E | apply Z.ltb_ge in E]; lia.
Qed.

(** X17. Narrowing to [n] places below the precision, with
    [f = 10^(precision - n)]: the DOWN mode gives the floor of
    [value / f], the UP mode its ceiling, and TOWARD_ZERO its
    truncation. *)
Theorem directed_rounding dp custom this s A n :
  heap s !! this = Some A ->
  n < precision A ->
  let f := 10 ^ (precision A - n) in
  toDecimal (mkSettings dp DOWN custom) this (Some n) s
    = (Ok (value A / f), s) /\
  toDecimal (mkSettings dp UP custom) this (Some n) s
    = (Ok (- (- value A / f)), s) /\
  toDecimal (mkSettings dp TOWARD_ZERO custom) this (Some n) s
    = (Ok (Z.quot (value A) f), s).
Proof.
  intros Ha Hn f.
  assert (0 < f) as Hf by (apply Z.pow_pos_nonneg; lia).
  rewrite !(toDecimal_spec _ this (Some n) s A Ha). simpl default. cbv zeta.
  rewrite (proj2 (Z.ltb_lt _ _) Hn). fold f.
  unfold carry_of, rounders. simpl ROUNDING_MODE.
  rewrite !rem_ok by lia.
  destruct (sign_of_cases (value A)) as [[Hv ->] | [Hv ->]];
    change (-1 <? 0) with true; change (1 <? 0) with false; cbv iota.
  - replace (-1 * value A) with (- value A) by lia.
    rewrite !floor_of_quot by lia.
    rewrite (proj2 (Z.ltb_lt (value A) 0)) by lia.
    rewrite (proj2 (Z.ltb_ge (- value A) 0)) by lia.
    rewrite Z.rem_opp_l, Z.quot_opp_l by lia.
    destruct (Z.rem (value A) f =? 0) eqn:E;
      [apply Z.eqb_eq in E; rewrite E | apply Z.eqb_neq in E];
      simpl; [|rewrite (proj2 (Z.eqb_neq (- Z.rem (value A) f) 0)) by lia];
      split_and!; do 2 f_equal; lia.
  - replace (1 * value A) with (value A) by lia.
    rewrite !floor_of_quot by lia.
    rewrite (proj2 (Z.ltb_ge (value A) 0)) by lia.
    rewrite Z.rem_opp_l, Z.quot_opp_l by lia.
    destruct (Z.rem (value A) f =? 0) eqn:E;
      [apply Z.eqb_eq in E; rewrite E | apply Z.eqb_neq in E];
      simpl; [|rewrite (proj2 (Z.eqb_neq (- Z.rem (value A) f) 0)) by lia];
      rewrite ?Bool.andb_true_r, ?Bool.andb_false_r;
      destruct (- value A <? 0) eqn:E';
      [apply Z.ltb_lt in E'| apply Z.ltb_ge in E'
      |apply Z.ltb_lt in E'| apply Z.ltb_ge in E'];
      split_and!; do 2 f_equal; try lia.
Qed.

(** X18. In the HALF_AWAY_FROM_ZERO mode, narrowing gives a nearest
    multiple of [f = 10^(precision - n)]: the result [d] has
    [|value - d * f| <= f / 2], and on a tie [d * f] is the one of the two
    farther from zero. *)
Theorem half_away_is_nearest settings this s A n :
  ROUNDING_MODE settings = HALF_AWAY_FROM_ZERO ->
  heap s !! this = Some A ->
  n < precision A ->
  let f := 10 ^ (precision A - n) in
  exists d,
    toDecimal settings this (Some n) s = (Ok d, s) /\
    2 * Z.abs (value A - d * f) <= f /\
    (2 * Z.abs (value A - d * f) = f -> Z.abs (value A) < Z.abs (d * f)).
Proof.
  intros Hmode Ha Hn f.
  assert (0 < f) as Hf by (apply Z.pow_pos_nonneg; lia).
  rewrite (toDecimal_spec _ this (Some n) s A Ha). simpl default. cbv zeta.
  rewrite (proj2 (Z.ltb_lt _ _) Hn). fold f.
  unfold carry_of, rounders. rewrite Hmode.
  rewrite rem_ok by lia. eexists. split; [reflexivity|].
  rewrite Z.shiftl_mul_pow2 by lia. change (2 ^ 1) with 2.
  rewrite Z.geb_leb.
  pose proof (Z.quot_rem' (value A) f) as E0.
  pose proof (Z.rem_bound_abs (value A) f ltac:(lia)) as Hb.
  destruct (sign_of_cases (value A)) as [[Hv ->] | [Hv ->]].
  - replace (-1 * value A) with (- value A) by lia.
    rewrite Z.rem_opp_l by lia.
    pose proof (Z.rem_nonpos (value A) f ltac:(lia) ltac:(lia)) as Hr.
    remember (Z.quot (value A) f) as q eqn:Eq.
    remember (Z.rem (value A) f) as r eqn:Er. clear Eq Er.
    destruct (f <=? - r * 2) eqn:E;
      [apply Z.leb_le in E | apply Z.leb_gt in E]; lia.
  - replace (1 * value A) with (value A) by lia.
    pose proof (Z.rem_nonneg (value A) f ltac:(lia) ltac:(lia)) as Hr.
    remember (Z.quot (value A) f) as q eqn:Eq.
    remember (Z.rem (value A) f) as r eqn:Er. clear Eq Er.
    destruct (f <=? r * 2) eqn:E;
      [apply Z.leb_le in E | apply Z.leb_gt in E]; lia.
Qed.

(** X19. In the HALF_AWAY_FROM_ZERO and TOWARD_ZERO modes rounding is
    symmetric about zero: [toDecimal] of an instance with the opposite
    value is the opposite of [toDecimal], at any number of places. *)
Theorem rounding_is_symmetric settings a b s A places :
  ROUNDING_MODE settings = HALF_AWAY_FROM_ZERO \/
  ROUNDING_MODE settings = TOWARD_ZERO ->
  heap s !! a = Some A ->
  heap s !! b = Some (set_value (- value A) A) ->
  exists d,
    toDecimal settings a places s = (Ok d, s) /\
    toDecimal settings b places s = (Ok (- d), s).
Proof.
  intros Hmode Ha Hb.
  rewrite (toDecimal_spec _ a places s A Ha).
  rewrite (toDecimal_spec _ b places s _ Hb).
  cbn [decimals precision value set_value]. cbv zeta.
  set (n := default (decimals A) places).
  destruct (n <? precision A) eqn:Hn;
    [apply Z.ltb_lt in Hn | eexists; split; [reflexivity | do 2 f_equal; lia]].
  set (f := 10 ^ (precision A - n)).
  assert (0 < f) as Hf by (apply Z.pow_pos_nonneg; lia).
  unfold carry_of, rounders.
  destruct Hmode as [-> | ->].
  - rewrite !rem_ok by lia. eexists. split; [reflexivity|].
    do 2 f_equal. rewrite Z.quot_opp_l by lia.
    destruct (sign_of_cases (value A)) as [[Hv ->] | [Hv ->]].
    + destruct (sign_of_cases (- value A)) as [[Hv' ->] | [Hv' ->]]; [lia|].
      replace (1 * - value A) with (-1 * value A) by lia.
      destruct (_ >=? f); lia.
    + destruct (sign_of_cases (- value A)) as [[Hv' ->] | [Hv' ->]].
      * replace (-1 * - value A) with (1 * value A) by lia.
        destruct (_ >=? f); lia.
      * assert (value A = 0) as -> by lia.
        change (1 * - 0) with 0. change (1 * 0) with 0.
        rewrite Z.rem_0_l by lia. change (Z.shiftl 0 1) with 0.
        rewrite Z.geb_leb, (proj2 (Z.leb_gt f 0)) by lia.
        rewrite Z.quot_0_l by lia. lia.
  - eexists. split; [reflexivity|].
    do 2 f_equal. rewrite Z.quot_opp_l by lia. lia.
Qed.

(** X20. [valueOf()] is [toDecimal(0)] in every mode of the class, and
    in the CUSTOM mode too on an instance of positive precision. *)
Theorem valueOf_is_toDecimal_0 settings this s A :
  heap s !! this = Some A ->
  invariant A ->
  ROUNDING_MODE settings <> CUSTOM \/ 0 < precision A ->
  valueOf settings this s = toDecimal settings this (Some 0) s.
Proof.
  intros Ha HA [Hmode | Hp]; apply (valueOf_toDecimal_0 settings this s A Ha HA).
  - right. by apply builtin_carry_1.
  - by left.
Qed.

End Modes.

(** ** Settings *)

(** X21. The default precision is read by the constructor only, and
    only when it is given a value that is not an instance and no
    precision: every other call runs the same under any default
    precision.  The rounding mode and the custom rounding function are
    read by [valueOf], [toDecimal] and [toString] only. *)
Theorem settings_scope dp dp' mode mode' custom custom' c :
  (reads_default_precision c = false ->
   perform (mkSettings dp mode custom) c = perform (mkSettings dp' mode custom) c) /\
  (rounds c = false ->
   perform (mkSettings dp mode custom) c = perform (mkSettings dp mode' custom') c).
Proof.
  split; intros Hc.
  - destruct c as [v d [p|] b| | | | | | | | | | | | | | | | |]; try reflexivity.
    by destruct v as [[| | |]|].
  - destruct c; try discriminate; try reflexivity.
Qed.

(** ** The matchers *)

Section Matching.

Import jestMatchers.

Variable settings : Settings.
Variable number : Type.
Variable number_toString : number -> string.
Variable ten zero : number.
Variable pow div sub : number -> number -> number.
Variable strict_equal : number -> number -> bool.

Implicit Types (s : state) (A B : N).

(** X22. [N_toExactlyMatch] returns, changes nothing, and passes exactly
    when the two instances have the same five fields. *)
Theorem exact_match_iff_same_fields a b s A B :
  heap s !! a = Some A ->
  heap s !! b = Some B ->
  exists r,
    N_toExactlyMatch settings number number_toString a b s = (Ok r, s) /\
    (pass r = true <-> A = B).
Proof.
  intros Ha Hb. unfold N_toExactlyMatch.
  do 10 (erewrite bind_ok by (apply get_ok; eassumption)).
  destruct A as [d1 df1 v1 p1 f1], B as [d2 df2 v2 p2 f2]. simpl.
  destruct (v1 =? v2) eqn:Ev, (d1 =? d2) eqn:Ed, (df1 =? df2) eqn:Edf,
    (p1 =? p2) eqn:Ep, (f1 =? f2) eqn:Ef; simpl;
    eexists; (split; [reflexivity|]); simpl;
    rewrite ?Z.eqb_eq, ?Z.eqb_neq in *;
    (split; [try discriminate; intros _; congruence | try done; intros [=]; congruence]).
Qed.

(** X23. Called without a [precision], [N_toBeAround] never passes,
    whatever it is given to compare: the type test on [precision] comes
    before its default. *)
Theorem around_needs_cutoff actual expected s r s' :
  N_toBeAround settings number number_toString ten zero pow div sub strict_equal
    actual expected None s = (Ok r, s') ->
  pass r = false.
Proof.
  unfold N_toBeAround. intros H.
  apply bind_inv in H as [(x & s1 & _ & H) | (e & _ & [=])].
  apply bind_inv in H as [(y & s2 & _ & H) | (e & _ & [=])].
  assert (match x, y, @None (cutoff number) with
          | ABigint _ a, ABigint _ e, Some (BigintCutoff _ p) =>
              f <- lift (BigInt.pow 10 p) ;;
              a <- lift (BigInt.div a f) ;;
              f <- lift (BigInt.pow 10 p) ;;
              e <- lift (BigInt.div e f) ;;
              ret (ABigint number a, ABigint number e, a - e =? 0)
          | ANumber _ a, ANumber _ e, Some (NumberCutoff _ p) =>
              let a := div a (pow ten p) in
              let e := div e (pow ten p) in
              ret (ANumber number a, ANumber number e, strict_equal (sub a e) zero)
          | _, _, _ => ret (x, y, false)
          end = ret (x, y, false)) as E by by destruct x, y.
  rewrite E in H. rewrite bind_ok with (a := (x, y, false)) (s' := s2) in H by done.
  by injection H as <- _.
Qed.

(** X24. With a bigint [precision] of [p >= 0], on instances (by their
    [toDecimal()]) and bigints, [N_toBeAround] passes exactly when the
    two values agree once their [p] last digits are cut off. *)
Theorem around_compares_truncated actual expected a e p s :
  compared settings number actual s = Some a ->
  compared settings number expected s = Some e ->
  0 <= p ->
  exists r,
    N_toBeAround settings number number_toString ten zero pow div sub strict_equal
      actual expected (Some (BigintCutoff number p)) s = (Ok r, s) /\
    pass r = (Z.quot a (10 ^ p) =? Z.quot e (10 ^ p)).
Proof.
  intros Ha He Hp. unfold N_toBeAround.
  assert (forall x z, compared settings number x s = Some z ->
            match x with
            | AnN _ r => z <- toDecimal settings r None ;; ret (ABigint number z)
            | _ => ret x
            end s = (Ok (ABigint number z), s)) as Hconv.
  { intros x z Hx. destruct x as [r|z'|x]; simpl in Hx.
    - destruct (toDecimal settings r None s) as [[d|?] s1] eqn:Hd; [|done].
      injection Hx as ->.
      pose proof (readonly_toDecimal settings r None s _ _ Hd) as ->.
      by rewrite (bind_ok _ _ _ _ _ Hd).
    - by injection Hx as ->.
    - done. }
  rewrite (bind_ok _ _ _ _ _ (Hconv actual a Ha)).
  rewrite (bind_ok _ _ _ _ _ (Hconv expected e He)).
  assert (10 ^ p <> 0) by (apply Z.pow_nonzero; lia).
  cbv beta iota.
  assert ((f <- lift (BigInt.pow 10 p) ;;
           a <- lift (BigInt.div a f) ;;
           f <- lift (BigInt.pow 10 p) ;;
           e <- lift (BigInt.div e f) ;;
           ret (ABigint number a, ABigint number e, a - e =? 0)) s
          = (Ok (ABigint number (Z.quot a (10 ^ p)),
                 ABigint number (Z.quot e (10 ^ p)),
                 Z.quot a (10 ^ p) - Z.quot e (10 ^ p) =? 0), s)) as Hinner
    by (destruct s; js_run; reflexivity).
  rewrite (bind_ok _ _ _ _ _ Hinner). cbv beta iota.
  destruct (Z.quot a (10 ^ p) - Z.quot e (10 ^ p) =? 0) eqn:E;
    [apply Z.eqb_eq in E | apply Z.eqb_neq in E];
    eexists; (split; [reflexivity|]); simpl; symmetry;
    [apply Z.eqb_eq | apply Z.eqb_neq]; lia.
Qed.

End Matching.

(** ** Colored messages *)

Section Colors.

Import colors.
Local Open Scope string_scope.

(** An escape character ends any match in progress, and a match lies
    within the string. *)
Lemma digits_m_before_escape seen t rest :
  digits_m seen (t ++ String esc rest) = digits_m seen t.
Proof.
  revert seen. induction t as [|c t IH]; intros seen; simpl.
  - by destruct seen.
  - by rewrite IH.
Qed.

Lemma escape_length_before_escape t rest :
  t <> EmptyString ->
  escape_length (t ++ String esc rest) = escape_length t.
Proof.
  intros Ht. destruct t as [|c [|b t]]; [done | |].
  - simpl. destruct (Ascii.eqb c esc); done.
  - simpl. by rewrite digits_m_before_escape.
Qed.

Lemma digits_m_length seen t n :
  digits_m seen t = Some n -> (n <= String.length t)%nat.
Proof.
  revert seen n. induction t as [|c t IH]; intros seen n; simpl; [done|].
  destruct (is_digit c).
  - destruct (digits_m true t) as [k|] eqn:E; [|done].
    intros [= <-]. apply IH in E. lia.
  - destruct (seen && _)%bool; [|done]. intros [= <-]. lia.
Qed.

Lemma escape_length_bound t n :
  escape_length t = Some n -> (n <= String.length t)%nat.
Proof.
  destruct t as [|c [|b t]]; [done..|]. simpl.
  destruct (_ && _)%bool; [|done].
  destruct (digits_m false t) as [k|] eqn:E; [|done].
  intros [= <-]. apply digits_m_length in E. lia.
Qed.

(** A closing [reset] is dropped, whatever comes before it. *)
Lemma replace_escapes_before_reset skip t :
  (skip <= String.length t)%nat ->
  replace_escapes skip (t ++ reset) = replace_escapes skip t.
Proof.
  revert skip. induction t as [|c t IH]; intros skip Hskip.
  - simpl in Hskip. by replace skip with 0%nat by lia.
  - destruct skip as [|k].
    + change ((String c t) ++ reset) with (String c (t ++ reset)).
      cbn [replace_escapes].
      change (String c (t ++ reset)) with ((String c t) ++ reset).
      unfold reset at 1 3. rewrite escape_length_before_escape by done.
      fold reset.
      destruct (escape_length (String c t)) as [[|k]|] eqn:E.
      * by rewrite IH by lia.
      * apply escape_length_bound in E. simpl in E. by rewrite IH by lia.
      * by rewrite IH by lia.
    + simpl in Hskip. simpl. by rewrite IH by lia.
Qed.

(** Without an escape character there is nothing to drop. *)
Lemma uncolorize_plain m :
  Forall (fun c => c <> esc) (list_ascii_of_string m) -> uncolorize m = m.
Proof.
  unfold uncolorize. induction m as [|c m IH]; [done|].
  simpl list_ascii_of_string. intros [Hc Hm]%Forall_cons.
  cbn [replace_escapes].
  assert (escape_length (String c m) = None) as ->.
  { destruct m; [done|]. simpl.
    by rewrite (proj2 (Ascii.eqb_neq c esc) Hc). }
  by rewrite IH.
Qed.

(** X25. [uncolorize] removes what [red], [green] and [dyeRed] add,
    however they are called: a colored message uncolorizes to what the
    message itself uncolorizes to, which is the message when it has no
    escape character. *)
Theorem uncolorize_reverts messages :
  let m := extractMessage messages in
  (uncolorize (red messages) = uncolorize m /\
   uncolorize (green messages) = uncolorize m /\
   uncolorize (dyeRed messages) = uncolorize m) /\
  (Forall (fun c => c <> esc) (list_ascii_of_string m) -> uncolorize m = m).
Proof.
  intros m. split; [|apply uncolorize_plain].
  unfold uncolorize, red, green, dyeRed. fold m.
  split_and!; simpl; apply replace_escapes_before_reset; lia.
Qed.

End Colors.

(** ** The shape of a text *)

Section Shape.

Variable settings : Settings.
Implicit Types (h : list N) (s : state) (A B I : N).

(** What [slice] and [padStart] do to lengths. *)
Lemma substring_length k m t :
  (k + m <= String.length t)%nat -> String.length (substring k m t) = m.
Proof.
  revert k m. induction t as [|c t IH]; intros k m H; simpl in H.
  - assert (k = 0 /\ m = 0)%nat as [-> ->] by lia. done.
  - destruct k as [|k]; simpl.
    + destruct m as [|m]; [done|]. simpl. rewrite IH by lia. done.
    + apply IH. lia.
Qed.

Lemma repeat_length c n : String.length (JsString.repeat c n) = n.
Proof. induction n; simpl; congruence. Qed.

Lemma padStart_length t n c :
  n <= JsString.length (JsString.padStart t n c).
Proof.
  unfold JsString.padStart, JsString.length.
  rewrite length_append, repeat_length. lia.
Qed.

(** X26. [toString(n)] with [n > 0] returns on every instance, in every
    mode, and changes nothing; its text is a part, a point, and exactly
    [n] characters after the point. *)
Theorem toString_shape this s A n :
  heap s !! this = Some A ->
  0 < n ->
  exists whole fraction,
    toString settings this (Some n) s
      = (Ok (whole ++ String "." fraction)%string, s) /\
    JsString.length fraction = n.
Proof.
  intros Ha Hn. unfold toString.
  rewrite (bind_ok _ _ _ _ _ (ret_ok n s)).
  destruct (toDecimal_returns settings this (Some n) s A Ha) as (d & s' & Hd).
  pose proof (readonly_toDecimal settings this (Some n) s _ _ Hd) as ->.
  rewrite (bind_ok _ _ _ _ _ Hd).
  rewrite (proj2 (Z.gtb_lt n 0)) by lia.
  eexists _, _. split; [reflexivity|].
  pose proof (padStart_length (BigInt.toString d) n "0") as Hlen.
  set (decimal := JsString.padStart (BigInt.toString d) n "0") in *.
  unfold JsString.slice, JsString.relative.
  rewrite (proj2 (Z.ltb_lt (- n) 0)) by lia.
  unfold JsString.length in *.
  rewrite substring_length by lia. lia.
Qed.

End Shape.

(** ** Negative strings of digits *)

Section Negative.

Variable settings : Settings.
Local Abbreviation text := NilEmpty.string_of_uint.
Implicit Types (h : list N) (s : state) (A : N) (u ip fp : uint).

(** The digits of a negative number whose integer part is not zero. *)
Lemma nzhead_app_left ip fp :
  nzhead ip <> Nil -> nzhead (Decimal.app ip fp) = Decimal.app (nzhead ip) fp.
Proof.
  induction ip; intros H; try done.
  all: rewrite app_cons by done; simpl in *;
    first [by apply IHip | by rewrite app_cons].
Qed.

Lemma app_nonempty ip fp : fp <> Nil -> Decimal.app ip fp <> Nil.
Proof.
  intros Hfp E. apply (f_equal nb_digits) in E.
  rewrite <- text_length, text_app, length_append, !text_length in E.
  destruct fp; simpl in E; [done|lia..].
Qed.

Lemma of_string_negative u :
  u <> Nil ->
  BigInt.of_string (String "-" (text u)) = Ok (- Z.of_uint u).
Proof.
  intros Hu. unfold BigInt.of_string.
  change (BigInt.trim_start (String "-" (text u))) with (String "-" (text u)).
  assert (BigInt.trim_end (String "-" (text u)) = String "-" (text u)) as ->.
  { simpl. rewrite trim_end_text. by destruct u. }
  simpl Ascii.eqb. cbv iota.
  pose proof (digits_value_text u 0) as Hv. rewrite Z.mul_0_l, Z.add_0_l in Hv.
  unfold BigInt.literal. destruct (text u) eqn:E; [by destruct u|].
  by rewrite Hv.
Qed.

Lemma toString_negative u :
  nzhead u <> Nil ->
  BigInt.toString (- Z.of_uint u) = String "-" (text (nzhead u)).
Proof.
  intros Hu. unfold BigInt.toString.
  change (- Z.of_uint u) with (Z.of_int (Neg u)).
  rewrite DecimalZ.to_of. simpl.
  destruct (nzhead u) eqn:E; done.
Qed.

(** X27. In the modes of the class, a negative string of digits, a point
    and at least one digit, whose integer part is not zero, is given back
    by [toString()] with the leading zeros of its integer part dropped
    and nothing else changed. *)
Theorem negative_text_round_trip ip fp d p s :
  ROUNDING_MODE settings <> CUSTOM ->
  fp <> Nil ->
  nzhead ip <> Nil ->
  exists s',
    (n <- new settings
            (Some (Str (String "-" (text ip ++ String "." (text fp))))) d p false ;;
     toString settings n None) s
    = (Ok (String "-" (text (nzhead ip) ++ String "." (text fp))), s').
Proof.
  intros Hmode Hfp Hip.
  assert (0 < nb_digits fp)%nat as Hd by (destruct fp; simpl; [done|lia..]).
  set (digits := (text ip ++ String "." (text fp))%string).
  set (k := Z.of_nat (nb_digits fp)).
  set (m := - Z.of_uint (Decimal.app ip fp)).
  assert (JsString.indexOf digits "." = Z.of_nat (nb_digits ip)) as Hdigits
    by apply indexOf_text.
  assert (JsString.indexOf (String "-" digits) "." = Z.of_nat (nb_digits ip) + 1)
    as Hindex.
  { simpl. rewrite Hdigits. by rewrite (proj2 (Z.ltb_ge _ 0)) by lia. }
  assert (JsString.length (String "-" digits) - 1
          - JsString.indexOf (String "-" digits) "." = k) as Hdec.
  { rewrite Hindex. unfold JsString.length, digits. simpl String.length.
    rewrite length_append. simpl String.length. rewrite !text_length. lia. }
  assert (new settings (Some (Str (String "-" digits))) d p false s
          = new settings (Some (Big m)) (Some k) p false s) as Hnew.
  { unfold new, constructor. simpl default.
    unfold JsString.includes. rewrite Hdec, Hindex.
    rewrite (proj2 (Z.ltb_ge _ 0)) by lia. simpl negb. cbv iota.
    assert (JsString.join (JsString.split (String "-" digits) ".") EmptyString
            = String "-" (text (Decimal.app ip fp))) as ->.
    { simpl. unfold digits. rewrite split_text. simpl. by rewrite text_app. }
    rewrite of_string_negative by by apply app_nonempty.
    fold m. unfold bind. by rewrite init_default_precision by lia. }
  pose proof (new_magnitude settings (Big m) m k p s ltac:(by right) ltac:(lia))
    as Hbig. cbv zeta in Hbig.
  rewrite <- Hnew in Hbig. rewrite (bind_ok _ _ _ _ _ Hbig). clear Hnew Hbig.
  set (P := Z.max (default (DEFAULT_PRECISION settings) p) k).
  set (A := mkN k (10 ^ k) (m * 10 ^ (P - k)) P (10 ^ P)).
  set (s1 := set_heap (heap s ++ [A]) s).
  assert (heap s1 !! length (heap s) = Some A) as HA by apply at_top.
  unfold toString.
  rewrite (bind_ok _ _ _ _ _ (get_ok decimals s1 _ A HA)).
  assert (toDecimal settings (length (heap s)) (Some k) s1 = (Ok m, s1)) as Hm.
  { rewrite (toDecimal_spec settings _ (Some k) s1 A HA).
    simpl default. cbv zeta. change (precision A) with P.
    change (value A) with (m * 10 ^ (P - k)).
    destruct (k <? P) eqn:Hlt; [apply Z.ltb_lt in Hlt | apply Z.ltb_ge in Hlt].
    - rewrite builtin_carry_multiple by (try done; apply Z.pow_pos_nonneg; lia).
      rewrite Z.quot_mul by (apply Z.pow_nonzero; lia). f_equal. f_equal. lia.
    - assert (P = k) as -> by (unfold P in *; lia).
      rewrite Z.sub_diag. f_equal. f_equal. simpl. lia. }
  change (decimals A) with k.
  rewrite (bind_ok _ _ _ _ _ Hm).
  eexists. unfold ret. f_equal. f_equal.
  rewrite (proj2 (Z.gtb_lt k 0)) by lia.
  assert (nzhead (Decimal.app ip fp) = Decimal.app (nzhead ip) fp) as Hnz
    by by apply nzhead_app_left.
  unfold m. rewrite toString_negative by (rewrite Hnz; by apply app_nonempty).
  rewrite Hnz, text_app.
  assert (JsString.padStart (String "-" (text (nzhead ip) ++ text fp)) k "0"
          = (String "-" (text (nzhead ip)) ++ text fp)%string) as ->.
  { unfold JsString.padStart, JsString.length. simpl String.length.
    rewrite length_append, !text_length.
    replace (Z.to_nat _) with 0%nat by (unfold k; lia). done. }
  replace k with (JsString.length (text fp))
    by (unfold JsString.length; by rewrite text_length).
  assert (text fp <> EmptyString) by by destruct fp.
  by rewrite slice_integer_part, slice_fraction_part.
Qed.

End Negative.

(** ** Instances

    Each property above that has hypotheses, at two instances, [100.00]
    and [23.45000]. *)

Ltac well_formed := unfold invariant; simpl; lia.

Lemma rebase_is_lossless_witness :
  let A := mkN 2 100 10000 2 100 in
  let B := mkN 5 100000 2345000 5 100000 in
  exists A' B',
    rebase defaults 1%nat (Obj 0%nat) (mkState [B; A] [])
      = (Ok 2%nat, mkState [B; A'; B'] []) /\
    exact A' == exact A /\ exact B' == exact B.
Proof.
  intros A B.
  destruct (rebase_is_lossless defaults [B] [] A 0%nat B eq_refl
              ltac:(well_formed) ltac:(well_formed))
    as (A' & B' & H & _ & _ & _ & EA & EB & _).
  by exists A', B'.
Defined.

Lemma plus_adds_decimal_values_witness :
  let a := mkN 2 100 10000 2 100 in
  let b := mkN 5 100000 2345000 5 100000 in
  exists R rest,
    plus defaults 0%nat (Obj 1%nat) (mkState [a; b] [])
      = (Ok 2%nat, mkState ([a; b] ++ R :: rest) []) /\
    exact R == exact a + exact b.
Proof.
  intros a b.
  destruct (plus_adds_decimal_values defaults 0%nat 1%nat [a; b] [] a b
              eq_refl eq_refl ltac:(well_formed) ltac:(well_formed))
    as (R & rest & H & E & _).
  by exists R, rest.
Defined.

Lemma minus_subtracts_decimal_values_witness :
  let a := mkN 2 100 10000 2 100 in
  let b := mkN 5 100000 2345000 5 100000 in
  exists R rest,
    minus defaults 0%nat (Obj 1%nat) (mkState [a; b] [])
      = (Ok 2%nat, mkState ([a; b] ++ R :: rest) []) /\
    exact R == exact a - exact b.
Proof.
  intros a b.
  destruct (minus_subtracts_decimal_values defaults 0%nat 1%nat [a; b] [] a b
              eq_refl eq_refl ltac:(well_formed) ltac:(well_formed))
    as (R & rest & H & E & _).
  by exists R, rest.
Defined.

Lemma mul_truncates_product_witness :
  let a := mkN 2 100 10000 2 100 in
  let b := mkN 5 100000 2345000 5 100000 in
  exists R rest,
    mul defaults 1%nat (Obj 0%nat) (mkState [a; b] [])
      = (Ok 2%nat, mkState ([a; b] ++ R :: rest) []) /\
    (Qabs (exact b * exact a - exact R) < 1 / inject_Z (factor R))%Q.
Proof.
  intros a b.
  destruct (mul_truncates_product defaults 1%nat 0%nat [a; b] [] b a
              eq_refl eq_refl ltac:(well_formed) ltac:(well_formed)
              ltac:(simpl; lia))
    as (R & rest & H & _ & _ & E).
  by exists R, rest.
Defined.

Lemma div_truncates_quotient_witness :
  let a := mkN 2 100 10000 2 100 in
  let b := mkN 5 100000 2345000 5 100000 in
  exists R rest,
    div defaults 1%nat (Obj 0%nat) (mkState [a; b] [])
      = (Ok 2%nat, mkState ([a; b] ++ R :: rest) []) /\
    (Qabs (exact b / exact a - exact R) < 1 / inject_Z (factor R))%Q.
Proof.
  intros a b.
  destruct (div_truncates_quotient defaults 1%nat 0%nat [a; b] [] b a
              eq_refl eq_refl ltac:(well_formed) ltac:(well_formed)
              ltac:(simpl; lia) ltac:(simpl; lia))
    as (R & rest & H & _ & _ & E).
  by exists R, rest.
Defined.

Lemma sq_truncates_square_witness :
  let b := mkN 5 100000 2345000 5 100000 in
  exists R rest,
    sq defaults 0%nat (mkState [b] [])
      = (Ok 1%nat, mkState ([b] ++ R :: rest) []) /\
    0 <= value R /\ (exact R <= exact b * exact b)%Q.
Proof.
  intros b.
  destruct (sq_truncates_square defaults 0%nat [b] [] b eq_refl
              ltac:(well_formed))
    as (R & rest & H & H0 & E & _).
  by exists R, rest.
Defined.

Lemma sqrt_is_integer_root_witness :
  let hundred := mkN 2 100 10000 2 100 in
  let two := mkN 0 1 2 0 1 in
  sqrt defaults 0%nat (mkState [hundred] [])
    = (Ok 1%nat, mkState [hundred; set_value 1000 hundred] []) /\
  sqrt defaults 0%nat (mkState [two] [])
    = (Ok 1%nat, mkState [two; two] []).
Proof.
  intros hundred two. split.
  - exact (sqrt_is_integer_root defaults 0%nat [hundred] [] hundred eq_refl
             ltac:(simpl; lia)).
  - exact (sqrt_is_integer_root defaults 0%nat [two] [] two eq_refl
             ltac:(simpl; lia)).
Defined.

Lemma comparisons_decide_order_witness :
  let a := mkN 2 100 10000 2 100 in
  let b := mkN 5 100000 2345000 5 100000 in
  fst (lt defaults 1%nat (Obj 0%nat) (mkState [a; b] []))
    = Ok (negb (Qle_bool (exact a) (exact b))).
Proof.
  intros a b.
  exact (proj1 (proj2 (comparisons_decide_order defaults 1%nat 0%nat [a; b] []
                         b a eq_refl eq_refl ltac:(well_formed)
                         ltac:(well_formed)))).
Defined.

Lemma clone_is_equal_copy_witness :
  let a := mkN 2 100 10000 2 100 in
  exists s',
    (c <- clone defaults 0%nat ;;
     same <- eq defaults 0%nat (Obj c) ;;
     ret (c, same)) (mkState [a] []) = (Ok (1%nat, true), s').
Proof.
  intros a.
  destruct (clone_is_equal_copy defaults 0%nat (mkState [a] []) a eq_refl)
    as (s' & H & _).
  by exists s'.
Defined.

Lemma construction_round_trip_witness :
  exists s',
    new defaults (Some (Big 12345)) (Some 2) None false empty = (Ok 0%nat, s') /\
    toDecimal defaults 0%nat None s' = (Ok 12345, s').
Proof.
  destruct (construction_round_trip defaults (Big 12345) 12345 2 None empty
              ltac:(by right) ltac:(lia) ltac:(discriminate))
    as (Hnew & _ & Hdec).
  eexists. split; [exact Hnew | exact Hdec].
Defined.

Lemma precise_round_trip_witness :
  let b := mkN 5 100000 2345000 5 100000 in
  (v <- toPrecise 0%nat ;;
   new defaults (Some (Big v)) (Some 5) (Some 5) true) (mkState [b] [])
  = (Ok 1%nat, mkState [b; b] []).
Proof.
  intros b.
  exact (precise_round_trip defaults 0%nat (mkState [b] []) b eq_refl
           ltac:(well_formed)).
Defined.

Lemma integer_operands_witness :
  let a := mkN 2 100 10000 2 100 in
  fst (eq defaults 0%nat (Num 100) (mkState [a] []))
    = Ok (Qeq_bool (exact a) (inject_Z 100)).
Proof.
  intros a.
  exact (proj2 (proj2 (proj2
    (integer_operands defaults 0%nat (Num 100) 100 [a] [] a eq_refl
       ltac:(well_formed) ltac:(by left))))).
Defined.

Lemma decimal_text_round_trip_witness :
  exists s',
    (n <- new defaults (Some (Str "0012.50")) None None false ;;
     toString defaults n None) empty = (Ok "12.50"%string, s').
Proof.
  exact (decimal_text_round_trip defaults
           (D0 (D0 (D1 (D2 Nil)))) (D5 (D0 Nil)) None None empty
           ltac:(discriminate) ltac:(discriminate)).
Defined.

Lemma integer_text_round_trip_witness :
  exists s',
    (n <- new defaults (Some (Big (-42))) None None false ;;
     toString defaults n None) empty = (Ok "-42"%string, s').
Proof.
  exact (integer_text_round_trip defaults (Big (-42)) (-42) None empty
           ltac:(by right) ltac:(discriminate)).
Defined.

Lemma decimal_text_operands_witness :
  let a := mkN 2 100 10000 2 100 in
  fst (eq defaults 0%nat (Str "100.000") (mkState [a] []))
    = Ok (Qeq_bool (exact a) (inject_Z 100000 / inject_Z 1000)).
Proof.
  intros a.
  exact (proj2 (proj2
    (decimal_text_operands defaults 0%nat (D1 (D0 (D0 Nil))) (D0 (D0 (D0 Nil)))
       [a] [] a eq_refl ltac:(well_formed)))).
Defined.

Lemma directed_rounding_witness :
  let b := mkN 5 100000 (-2345000) 5 100000 in
  let s := mkState [b] [] in
  toDecimal (mkSettings 80 DOWN (fun _ _ => 0)) 0%nat (Some 0) s = (Ok (-24), s) /\
  toDecimal (mkSettings 80 UP (fun _ _ => 0)) 0%nat (Some 0) s = (Ok (-23), s) /\
  toDecimal (mkSettings 80 TOWARD_ZERO (fun _ _ => 0)) 0%nat (Some 0) s
    = (Ok (-23), s).
Proof.
  intros b s.
  exact (directed_rounding 80 (fun _ _ => 0) 0%nat s b 0 eq_refl
           ltac:(simpl; lia)).
Defined.

Lemma half_away_is_nearest_witness :
  let b := mkN 5 100000 2345000 5 100000 in
  let s := mkState [b] [] in
  exists d,
    toDecimal defaults 0%nat (Some 1) s = (Ok d, s) /\
    2 * Z.abs (2345000 - d * 10000) <= 10000.
Proof.
  intros b s.
  destruct (half_away_is_nearest defaults 0%nat s b 1 eq_refl eq_refl
              ltac:(simpl; lia)) as (d & H & Hd & _).
  by exists d.
Defined.

Lemma rounding_is_symmetric_witness :
  let b := mkN 5 100000 2345000 5 100000 in
  let b' := mkN 5 100000 (-2345000) 5 100000 in
  let s := mkState [b; b'] [] in
  exists d,
    toDecimal defaults 0%nat (Some 1) s = (Ok d, s) /\
    toDecimal defaults 1%nat (Some 1) s = (Ok (- d), s).
Proof.
  intros b b' s.
  exact (rounding_is_symmetric defaults 0%nat 1%nat s b (Some 1)
           ltac:(by left) eq_refl eq_refl).
Defined.

Lemma valueOf_is_toDecimal_0_witness :
  let b := mkN 5 100000 2345000 5 100000 in
  let s := mkState [b] [] in
  valueOf defaults 0%nat s = toDecimal defaults 0%nat (Some 0) s.
Proof.
  intros b s.
  exact (valueOf_is_toDecimal_0 defaults 0%nat s b eq_refl ltac:(well_formed)
           ltac:(left; discriminate)).
Defined.

Lemma settings_scope_witness :
  perform (mkSettings 80 HALF_AWAY_FROM_ZERO (fun _ _ => 0))
          (Plus 0%nat (Num 1))
  = perform (mkSettings 2 DOWN (fun _ _ => 1)) (Plus 0%nat (Num 1)).
Proof.
  etransitivity.
  - exact (proj1 (settings_scope 80 2 HALF_AWAY_FROM_ZERO DOWN
                    (fun _ _ => 0) (fun _ _ => 1) (Plus 0%nat (Num 1))) eq_refl).
  - exact (proj2 (settings_scope 2 2 HALF_AWAY_FROM_ZERO DOWN
                    (fun _ _ => 0) (fun _ _ => 1) (Plus 0%nat (Num 1))) eq_refl).
Defined.

Lemma exact_match_iff_same_fields_witness :
  let a := mkN 2 100 10000 2 100 in
  let b := mkN 5 100000 10000000 5 100000 in
  let s := mkState [a; b] [] in
  exists r,
    jestMatchers.N_toExactlyMatch defaults unit (fun _ => EmptyString)
      0%nat 1%nat s = (Ok r, s) /\
    jestMatchers.pass r = false.
Proof.
  intros a b s.
  destruct (exact_match_iff_same_fields defaults unit (fun _ => EmptyString)
              0%nat 1%nat s a b eq_refl eq_refl) as (r & H & Hr).
  exists r. split; [exact H|].
  destruct (jestMatchers.pass r); [|reflexivity].
  discriminate (proj1 Hr eq_refl).
Defined.

Lemma around_needs_cutoff_witness :
  exists r,
    fst (jestMatchers.N_toBeAround defaults unit (fun _ => EmptyString)
           tt tt (fun _ _ => tt) (fun _ _ => tt) (fun _ _ => tt)
           (fun _ _ => true)
           (jestMatchers.ABigint unit 5) (jestMatchers.ABigint unit 5)
           None empty) = Ok r /\
    jestMatchers.pass r = false.
Proof.
  eexists. split; [reflexivity|].
  exact (around_needs_cutoff defaults unit (fun _ => EmptyString)
           tt tt (fun _ _ => tt) (fun _ _ => tt) (fun _ _ => tt)
           (fun _ _ => true)
           (jestMatchers.ABigint unit 5) (jestMatchers.ABigint unit 5)
           empty _ empty eq_refl).
Defined.

Lemma around_compares_truncated_witness :
  let a := mkN 2 100 12345670 5 100000 in
  let s := mkState [a] [] in
  exists r,
    jestMatchers.N_toBeAround defaults unit (fun _ => EmptyString)
      tt tt (fun _ _ => tt) (fun _ _ => tt) (fun _ _ => tt) (fun _ _ => true)
      (jestMatchers.AnN unit 0%nat) (jestMatchers.ABigint unit 12399)
      (Some (jestMatchers.BigintCutoff unit 2)) s = (Ok r, s) /\
    jestMatchers.pass r = true.
Proof.
  intros a s.
  exact (around_compares_truncated defaults unit (fun _ => EmptyString)
           tt tt (fun _ _ => tt) (fun _ _ => tt) (fun _ _ => tt)
           (fun _ _ => true)
           (jestMatchers.AnN unit 0%nat) (jestMatchers.ABigint unit 12399)
           12346 12399 2 s eq_refl eq_refl ltac:(lia)).
Defined.

Lemma uncolorize_reverts_witness :
  colors.uncolorize (colors.red (colors.Message "red")) = "red"%string.
Proof.
  destruct (uncolorize_reverts (colors.Message "red")) as [(H & _) Hplain].
  rewrite H. apply Hplain. simpl. repeat constructor; discriminate.
Defined.

Lemma toString_shape_witness :
  let small := mkN 2 100 (-5) 2 100 in
  let s := mkState [small] [] in
  exists whole fraction,
    toString defaults 0%nat (Some 2) s
      = (Ok (whole ++ String "." fraction)%string, s) /\
    JsString.length fraction = 2.
Proof.
  intros small s.
  exact (toString_shape defaults 0%nat s small 2 eq_refl ltac:(lia)).
Defined.

Lemma negative_text_round_trip_witness :
  exists s',
    (n <- new defaults (Some (Str "-012.50")) None None false ;;
     toString defaults n None) empty = (Ok "-12.50"%string, s').
Proof.
  exact (negative_text_round_trip defaults
           (D0 (D1 (D2 Nil))) (D5 (D0 Nil)) None None empty
           ltac:(discriminate) ltac:(discriminate) ltac:(discriminate)).
Defined.
